(** * DialPathRanker: a shallow embedding of
      [deeppavlov/models/kbqa/kg_dial_generator.py]

    The component picks a knowledge-graph relation path for the seed entity
    of every batch item and attaches a confidence to it.  The embedding
    follows [DialPathRanker.__call__] statement by statement.

    Numbers.  The scores of the type-path table and the entries of the
    relation-frequency table are Python ints or finite floats; each of them
    is a rational number, and Python compares and hashes them by value, so
    they are modelled by canonical rationals [Qc].  The confidence is a
    float computed through [math.log]; it is modelled by a real number,
    with the domain checks of [math.log] and of [/] written out. *)

From Stdlib Require Import Reals QArith Qcanon Qreals Lra Lia ZArith.
From stdpp Require Import base option gmap sets list strings sorting.

Local Open Scope string_scope.
Local Open Scope list_scope.

(** ** Python exceptions *)

Inductive exn : Type :=
| IndexError
| NameError
| ValueError
| ZeroDivisionError.

Inductive result (A : Type) : Type :=
| Ok (a : A)
| Raise (e : exn).

Arguments Ok {A} a.
Arguments Raise {A} e.

#[global] Instance result_ret : MRet result := λ A a, Ok a.
#[global] Instance result_bind : MBind result := λ A B f m,
  match m with
  | Ok a => f a
  | Raise e => Raise e
  end.

Definition returns {A} (m : result A) : Prop := ∃ a, m = Ok a.

(** [l[0]] *)
Definition item0 {A} (l : list A) : result A :=
  match l with
  | x :: _ => Ok x
  | [] => Raise IndexError
  end.

(** The comprehension [[f x for x in l]] when [f] can raise. *)
Fixpoint comprehension {A B} (f : A → result B) (l : list A) : result (list B) :=
  match l with
  | [] => Ok []
  | x :: l' => y ← f x; ys ← comprehension f l'; Ok (y :: ys)
  end.

(** ** Data *)

(** A path is a sequence of relation identifiers; [tuple(path)] and the
    list it was built from are the same sequence. *)
Abbreviation path := (list string) (only parsing).

(** An item of [entities_list]: an entity identifier, or (tolerated by the
    [isinstance(entity, list)] test) a list of them. *)
Inductive entity_item : Type :=
| Entity (e : string)
| EntityList (l : list string).

(** ** Iteration order of Python sets

    [for x in s] and [list(s)] enumerate a set in an order the language
    leaves open.  A set is a [gset]; its enumeration is the canonical
    [elements] rearranged by an arbitrary permutation. *)

Record set_iteration : Type := {
  iter_order : ∀ A : Type, list A → list A;
  iter_order_perm : ∀ (A : Type) (l : list A), iter_order A l ≡ₚ l
}.

Definition set_to_list (io : set_iteration) {A} `{Countable A} (s : gset A) : list A :=
  iter_order io A (elements s).

(** The enumeration that keeps the canonical order. *)
Definition canonical_iteration : set_iteration :=
  {| iter_order := λ A l, l;
     iter_order_perm := λ A l, reflexivity l |}.

(** ** Responses of the graph service

    [self.wiki_parser(queries...)] returns one result per query; the code
    takes result [[0]], and one more [[0]] when [use_api_requester] is set
    (the requester wraps each result in a further list). *)

Definition wp_response (api : bool) (A : Type) : Type :=
  list (if api then list A else A).

Definition wp_first {A} (api : bool) : wp_response api A → result A :=
  match api return wp_response api A → result A with
  | true => λ res, layer ← item0 res; item0 layer
  | false => λ res, item0 res
  end.

(** ** The component

    The three tables are the JSON files read by [__init__]; the graph
    service and the relevance ranker are external collaborators and are
    taken as the functions the code calls. *)

Record DialPathRanker : Type := {
  type_paths : gmap string (list (path * Qc));
  type_groups : gmap string (list string);
  rel_freq : gmap string (list Qc);
  max_log_freq : Qc;
  use_api_requester : bool;
  use_path_stat : bool;
  (** [wiki_parser(["find_types"], [entity])] *)
  wiki_find_types : string → wp_response use_api_requester (list string);
  (** [wiki_parser(["find_object", ...], [(t, rel, direction), ...])] *)
  wiki_find_object : list (string * string * string) → list (list string);
  (** [wiki_parser(["retrieve_paths"], [[entity, top_paths]])] *)
  wiki_retrieve_paths :
    string → list path → wp_response use_api_requester (list path * list (list string));
  (** [path_ranker.rank_paths(utterance, candidate_paths)] *)
  rank_paths : string → list path → list (path * Qc)
}.

(** ** [sorted(l, key=lambda x: x[1], reverse=True)]

    Python's sort is stable and stays stable under [reverse=True]: pairs
    with equal scores keep their order. *)

Fixpoint insert_desc (x : path * Qc) (l : list (path * Qc)) : list (path * Qc) :=
  match l with
  | [] => [x]
  | y :: l' =>
      if Qclt_le_dec x.2 y.2 then y :: insert_desc x l' else x :: y :: l'
  end.

Definition sorted_desc (l : list (path * Qc)) : list (path * Qc) :=
  foldr insert_desc [] l.

(** The variable [candidate_paths] holds a list in statistic mode and a
    set in ranking mode until line 150 turns it into a list. *)
Inductive candidates : Type :=
| AsList (l : list path)
| AsSet (s : gset path).

Section Ranker.
Variable io : set_iteration.
Variable self : DialPathRanker.

(** [self.type_paths.get(entity_type, set())] *)
Definition paths_of_type (entity_type : string) : list (path * Qc) :=
  default [] (type_paths self !! entity_type).

(** Lines 117-119: the union over the entity types of the
    [(path, score)] tuples. *)
Definition scored_candidates (entity_types : gset string) : gset (path * Qc) :=
  foldl (λ candidate_paths entity_type,
           candidate_paths ∪ list_to_set (paths_of_type entity_type))
        ∅ (set_to_list io entity_types).

(** Lines 124-126: the union over the entity types of the paths. *)
Definition plain_candidates (entity_types : gset string) : gset path :=
  foldl (λ candidate_paths entity_type,
           candidate_paths ∪ list_to_set ((paths_of_type entity_type).*1))
        ∅ (set_to_list io entity_types).

(** Lines 120-121: the tuples as a list, sorted by score. *)
Definition ranked_by_stat (entity_types : gset string) : list (path * Qc) :=
  sorted_desc (set_to_list io (scored_candidates entity_types)).

(** Lines 115-126 (and again 138-148). *)
Definition collect_candidates (entity_types : gset string) : candidates :=
  if use_path_stat self
  then AsList ((ranked_by_stat entity_types).*1)
  else AsSet (plain_candidates entity_types).

(** [not candidate_paths] *)
Definition is_empty (c : candidates) : bool :=
  match c with
  | AsList l => bool_decide (l = [])
  | AsSet s => bool_decide (s = ∅)
  end.

(** [list(candidate_paths)] *)
Definition as_list (c : candidates) : list path :=
  match c with
  | AsList l => l
  | AsSet s => set_to_list io s
  end.

(** The name [subclass_groups] of line 137 is bound nowhere: it is
    neither a local of [__call__] (the local is [subclass_group]), nor a
    module global, nor a builtin.  Evaluating it raises [NameError]. *)
Definition subclass_groups : result (gset string) := Raise NameError.

(** Line 135: [set(self.type_groups.get(subcls, []))] *)
Definition subclass_group (subcls : string) : gset string :=
  list_to_set (default [] (type_groups self !! subcls)).

(** Lines 134-137, with the accumulator [add_entity_types]. *)
Fixpoint scan_subclasses (entity_types : gset string) (subclasses : list string)
    (add_entity_types : gset string) : result (gset string) :=
  match subclasses with
  | [] => Ok add_entity_types
  | subcls :: rest =>
      if bool_decide (entity_types ∩ subclass_group subcls ≠ ∅)
      then
        groups ← subclass_groups;
        scan_subclasses entity_types rest
          (add_entity_types ∪ (groups ∖ entity_types))
      else scan_subclasses entity_types rest add_entity_types
  end.

(** Lines 131-133: one [find_object] query per entity type, flattened. *)
Definition find_subclasses (entity_types : gset string) : list string :=
  concat (wiki_find_object self
            ((λ entity_type, (entity_type, "P279", "forw"))
               <$> set_to_list io entity_types)).

(** Lines 127-148: the fallback.  After the scan the candidates are
    collected again from [entity_types]; [add_entity_types] is not read. *)
Definition fallback (entity_types : gset string) : result candidates :=
  _ ← scan_subclasses entity_types (find_subclasses entity_types) ∅;
  Ok (collect_candidates entity_types).

(** Lines 115-150. *)
Definition candidate_paths (entity_types : gset string) : result (list path) :=
  let direct := collect_candidates entity_types in
  found ← (if is_empty direct then fallback entity_types else Ok direct);
  Ok (as_list found).

(** [self.rel_freq.get(rel, [0])[0]] *)
Definition frequency (rel : string) : result Qc :=
  item0 (default [0%Qc] (rel_freq self !! rel)).

(** [sum(...)] of a list of numbers. *)
Definition py_sum (l : list Qc) : Qc := foldl Qcplus 0%Qc l.

(** [a / b] on numbers. *)
Definition py_div (a b : Qc) : result Qc :=
  if bool_decide (b = 0%Qc) then Raise ZeroDivisionError else Ok (a / b)%Qc.

(** [sum([self.rel_freq.get(rel, [0])[0] for rel in chosen_rels]) /
    len(chosen_rels)] *)
Definition average_frequency (chosen_rels : list string) : result Qc :=
  freqs ← comprehension frequency chosen_rels;
  py_div (py_sum freqs) (Qc_of_Z (Z.of_nat (length chosen_rels))).

(** [math.log(x)]: a domain error unless [x] is positive. *)
Definition math_log (x : Qc) : result R :=
  if Qclt_le_dec 0 x then Ok (ln (Q2R x)) else Raise ValueError.

(** [x / self.max_log_freq] on floats. *)
Definition div_max_log_freq (x : R) : result R :=
  if bool_decide (max_log_freq self = 0%Qc) then Raise ZeroDivisionError
  else Ok (x / Q2R (max_log_freq self))%R.

(** Lines 174-176. *)
Definition confidence (chosen_rels : list string) : result R :=
  raw ← average_frequency chosen_rels;
  logarithm ← math_log raw;
  ratio ← div_max_log_freq logarithm;
  Ok (Rmin ratio 1 * 0.9)%R.

(** Lines 156-161. *)
Definition top_paths (utterance : string) (candidate_paths : list path) : list path :=
  if use_path_stat self then candidate_paths
  else (rank_paths self utterance candidate_paths).*1.

(** Lines 153-176: the retrieved paths and [conf]. *)
Definition retrieve (utterance entity : string) (candidate_paths : list path) :
    result (list path * R) :=
  match candidate_paths with
  | [] => Ok ([], 0%R)
  | _ :: _ =>
      wp_res ← wp_first (use_api_requester self)
                 (wiki_retrieve_paths self entity (top_paths utterance candidate_paths));
      let '(retrieved_paths, retrieved_rels) := wp_res in
      match retrieved_paths with
      | [] => Ok (retrieved_paths, 0%R)
      | chosen_path :: _ =>
          chosen_rels ← item0 retrieved_rels;
          conf ← confidence chosen_rels;
          Ok (retrieved_paths, conf)
      end
  end.

(** Lines 106-108. *)
Definition seed_entity (first : entity_item) : result string :=
  match first with
  | Entity e => Ok e
  | EntityList l => item0 l
  end.

(** Lines 110-113. *)
Definition seed_types (entity : string) : result (gset string) :=
  entity_types ← wp_first (use_api_requester self) (wiki_find_types self entity);
  Ok (list_to_set entity_types).

(** The body of the loop, lines 105-186: what is appended to
    [paths_batch] and to [conf_batch]. *)
Definition rank_item (utterance : string) (entities_list : list entity_item) :
    result (path * R) :=
  match entities_list with
  | [] => Ok ([], 0.4%R)
  | first :: _ =>
      entity ← seed_entity first;
      entity_types ← seed_types entity;
      paths ← candidate_paths entity_types;
      found ← retrieve utterance entity paths;
      let '(retrieved_paths, conf) := found in
      match retrieved_paths with
      | chosen :: _ => Ok (chosen, conf)
      | [] => Ok ([], 0%R)
      end
  end.

(** The loop of lines 104-186 over [zip(utterances_batch, entities_batch)]. *)
Fixpoint rank_loop (items : list (string * list entity_item))
    (paths_batch : list path) (conf_batch : list R) : result (list path * list R) :=
  match items with
  | [] => Ok (paths_batch, conf_batch)
  | (utterance, entities_list) :: rest =>
      out ← rank_item utterance entities_list;
      rank_loop rest (paths_batch ++ [out.1]) (conf_batch ++ [out.2])
  end.

(** [DialPathRanker.__call__]. *)
Definition DialPathRanker_call (utterances_batch : list string)
    (entities_batch : list (list entity_item)) : result (list path * list R) :=
  rank_loop (zip utterances_batch entities_batch) [] [].

End Ranker.

(** ** Concrete components *)

(** A response carrying one result, in the shape the flag announces. *)
Definition wp_single {A} (api : bool) (a : A) : wp_response api A :=
  match api return wp_response api A with
  | true => [[a]]
  | false => [a]
  end.

(** The default [max_log_freq: float = 8.0] of [__init__]. *)
Definition default_max_log_freq : Qc := Q2Qc 8.

(** A component whose graph service knows one typing of every entity, one
    answer to every subclass query and one retrieval result. *)
Definition make_ranker (tp : gmap string (list (path * Qc)))
    (tg : gmap string (list string)) (rf : gmap string (list Qc))
    (api stat : bool) (types : list string) (superclasses : list string)
    (retrieval : list path → list path * list (list string)) : DialPathRanker :=
  {| type_paths := tp;
     type_groups := tg;
     rel_freq := rf;
     max_log_freq := default_max_log_freq;
     use_api_requester := api;
     use_path_stat := stat;
     wiki_find_types := λ _, wp_single api types;
     wiki_find_object := λ queries, (λ _, superclasses) <$> queries;
     wiki_retrieve_paths := λ _ top, wp_single api (retrieval top);
     rank_paths := λ _ paths, (λ p, (p, Q2Qc 1)) <$> paths |}.

(** The graph service confirms the paths of [known], in the order asked. *)
Definition retrieval_of (known : list path) (top : list path) :
    list path * list (list string) :=
  let confirmed := filter (λ p, p ∈ known) top in (confirmed, confirmed).

(** The example of the specification: one type, two scored paths, the
    best one confirmed, frequency 100. *)
Definition example_ranker : DialPathRanker :=
  make_ranker {[ "TypeA" := [(["P31"], Q2Qc (9 # 10)); (["P21"], Q2Qc (1 # 2))] ]}
    ∅ {[ "P31" := [Q2Qc 100] ]} false true ["TypeA"] []
    (retrieval_of [["P31"]; ["P21"]]).

(** ** Predicates used by the statements *)

(** The item reaches the graph retrieval of line 164, which answers with
    the lists [retrieved_paths] and [retrieved_rels]. *)
Definition retrieves (io : set_iteration) (self : DialPathRanker)
    (utterance : string) (entities_list : list entity_item)
    (retrieved_paths : list path) (retrieved_rels : list (list string)) : Prop :=
  ∃ first rest entity entity_types found,
    entities_list = first :: rest
    ∧ seed_entity first = Ok entity
    ∧ seed_types self entity = Ok entity_types
    ∧ candidate_paths io self entity_types = Ok found
    ∧ found ≠ []
    ∧ wp_first (use_api_requester self)
        (wiki_retrieve_paths self entity (top_paths self utterance found))
      = Ok (retrieved_paths, retrieved_rels).

(** No type of the seed entity has an entry in the type-path table and no
    subclass group meets the seed's types. *)
Definition unknown_type_ranker : DialPathRanker :=
  make_ranker ∅ {[ "S" := ["Other"] ]} ∅ false true ["TypeZ"] ["S"] (retrieval_of []).

(** Candidates exist, but the graph service confirms none of them; the
    component runs in ranking mode behind the API requester. *)
Definition unretrievable_ranker : DialPathRanker :=
  make_ranker {[ "TypeA" := [(["P31"], Q2Qc (9 # 10)); (["P21"], Q2Qc (1 # 2))] ]}
    ∅ {[ "P31" := [Q2Qc 100] ]} true false ["TypeA"] [] (retrieval_of []).

(** The confidence of the specification's example, as the code computes it. *)
Definition example_confidence : R :=
  (Rmin (ln (Q2R (Q2Qc 100)) / Q2R (Q2Qc 8)) 1 * 0.9)%R.

(** Two scored paths for the one type of the seed entity; the graph
    service confirms only the path with the lower score. *)
Definition second_best_ranker : DialPathRanker :=
  make_ranker {[ "TypeA" := [(["P31"], Q2Qc (9 # 10)); (["P21"], Q2Qc (1 # 2))] ]}
    ∅ {[ "P21" := [Q2Qc 50] ]} false true ["TypeA"] []
    (retrieval_of [["P21"]]).

(** The seed entity has two types, and the table lists the same path for
    both, with different scores. *)
Definition two_scores_ranker : DialPathRanker :=
  make_ranker
    {[ "TypeA" := [(["P31"], Q2Qc (9 # 10))]; "TypeB" := [(["P31"], Q2Qc (1 # 2))] ]}
    ∅ {[ "P31" := [Q2Qc 100] ]} false true ["TypeA"; "TypeB"] []
    (retrieval_of [["P31"]]).

(** The type [T] of the seed entity has no entry in the type-path table;
    its superclass [S] has the group [T, U], and [U] has a path. *)
Definition fallback_ranker (stat : bool) : DialPathRanker :=
  make_ranker {[ "U" := [(["P31"], Q2Qc (9 # 10))] ]}
    {[ "S" := ["T"; "U"] ]} {[ "P31" := [Q2Qc 100] ]} false stat ["T"] ["S"]
    (retrieval_of [["P31"]]).

(** [p] carries a highest score among the table entries of [entity_types]. *)
Definition top_scored (self : DialPathRanker) (entity_types : gset string)
    (p : path) : Prop :=
  ∃ s : Qc,
    (∃ t, t ∈ entity_types ∧ (p, s) ∈ paths_of_type self t)
    ∧ ∀ t p' s', t ∈ entity_types → (p', s') ∈ paths_of_type self t → (s' ≤ s)%Qc.

(** Descending order of the scores. *)
Definition score_ge (a b : path * Qc) : Prop := (b.2 ≤ a.2)%Qc.

(** The fallback as the specification words it: the groups of the
    subclasses that meet the seed's types are merged into the type set,
    and the candidates are collected from the expanded set. *)
Definition claimed_expanded_types (io : set_iteration) (self : DialPathRanker)
    (entity_types : gset string) : gset string :=
  foldl (λ types subcls,
           if bool_decide (entity_types ∩ subclass_group self subcls ≠ ∅)
           then types ∪ subclass_group self subcls else types)
        entity_types (find_subclasses io self entity_types).

Definition claimed_fallback_candidates (io : set_iteration) (self : DialPathRanker)
    (entity_types : gset string) : list path :=
  as_list io (collect_candidates io self (claimed_expanded_types io self entity_types)).

(** The relation of the only path has no entry in the frequency table. *)
Definition missing_frequency_ranker : DialPathRanker :=
  make_ranker {[ "TypeA" := [(["P999"], Q2Qc (9 # 10))] ]}
    ∅ {[ "P31" := [Q2Qc 100] ]} false true ["TypeA"] []
    (retrieval_of [["P999"]]).

(** A two-hop path whose first relation was counted once and whose second
    relation has no entry in the frequency table. *)
Definition half_frequency_ranker : DialPathRanker :=
  make_ranker {[ "TypeA" := [(["P1"; "P2"], Q2Qc (9 # 10))] ]}
    ∅ {[ "P1" := [Q2Qc 1] ]} false true ["TypeA"] []
    (retrieval_of [["P1"; "P2"]]).

Definition half_frequency_confidence : R :=
  (Rmin (ln (Q2R (Q2Qc (1 # 2))) / Q2R (Q2Qc 8)) 1 * 0.9)%R.

(** The frequency of a relation as the specification words it: the first
    element of its entry, and 0 for a relation without entry. *)
Definition first_frequency (self : DialPathRanker) (rel : string) : Qc :=
  match rel_freq self !! rel with
  | Some (f :: _) => f
  | _ => 0%Qc
  end.

(** [raw] as the specification words it: the average of the frequencies
    over the chosen relations. *)
Definition claimed_raw (self : DialPathRanker) (chosen_rels : list string) : Qc :=
  (foldr Qcplus 0%Qc (first_frequency self <$> chosen_rels)
   / Qc_of_Z (Z.of_nat (length chosen_rels)))%Qc.

(** The confidence as the specification words it. *)
Definition claimed_confidence (self : DialPathRanker) (chosen_rels : list string) : R :=
  (Rmin (ln (Q2R (claimed_raw self chosen_rels)) / Q2R (max_log_freq self)) 1 * 0.9)%R.

(** A relation without frequency data: no entry, or an entry that starts
    with 0. *)
Definition zero_or_missing (self : DialPathRanker) (rel : string) : Prop :=
  rel_freq self !! rel = None ∨ ∃ others, rel_freq self !! rel = Some (0%Qc :: others).

(** Repeated squaring in fixed point with scale [scale], rounding down;
    used to bound [ln 100]. *)
Fixpoint square_down (scale : Z) (k : nat) (q : Z) : Z :=
  match k with
  | O => q
  | S k' => square_down scale k' (q * q / scale)
  end.

Definition scale60 : Z := 2 ^ 60.

(** ** Further concrete components *)

(** The component [r] with another [max_log_freq]. *)
Definition with_max_log_freq (m : Qc) (r : DialPathRanker) : DialPathRanker :=
  {| type_paths := type_paths r;
     type_groups := type_groups r;
     rel_freq := rel_freq r;
     max_log_freq := m;
     use_api_requester := use_api_requester r;
     use_path_stat := use_path_stat r;
     wiki_find_types := wiki_find_types r;
     wiki_find_object := wiki_find_object r;
     wiki_retrieve_paths := wiki_retrieve_paths r;
     rank_paths := rank_paths r |}.

(** The graph service confirms the first path asked and reports the
    relation lists [rels] for it. *)
Definition retrieval_with (rels : list (list string)) (top : list path) :
    list path * list (list string) :=
  (take 1 top, rels).

(** One type with one path, confirmed by the graph service with the
    relation lists [rels]; [freq] is the frequency table. *)
Definition scoring_ranker (freq : gmap string (list Qc)) (rels : list (list string)) :
    DialPathRanker :=
  make_ranker {[ "TypeA" := [(["P31"], Q2Qc (9 # 10))] ]} ∅ freq false true
    ["TypeA"] [] (retrieval_with rels).

(** What an entity list contributes to the loop body: nothing when it is
    empty, and otherwise the outcome of lines 106-108 on its first item. *)
Definition seed_of (entities_list : list entity_item) : option (result string) :=
  match entities_list with
  | [] => None
  | first :: _ => Some (seed_entity first)
  end.

(** The enumeration that reverses the canonical order. *)
Definition reversed_iteration : set_iteration :=
  {| iter_order := λ A l, reverse l;
     iter_order_perm := λ A l, reverse_Permutation l |}.

(** The type [T] of the seed entity has no entry in the type-path table;
    its superclass [S] has the group [T, V], and no type has a path: the
    fallback of the specification merges [V] and still finds nothing. *)
Definition empty_fallback_ranker (stat : bool) : DialPathRanker :=
  make_ranker ∅ {[ "S" := ["T"; "V"] ]} ∅ false stat ["T"] ["S"] (retrieval_of []).

(** ** KGDialGenerator

    The tokenizer and the language model are external.  [generate] stands
    for [model.generate(input_ids, ..., do_sample=True)]: it returns the
    prompt followed by the sampled continuation, and sampling advances the
    state [sampler] of the random generator, which is passed explicitly.
    Confidences and the threshold are floats, idealised as reals. *)

Record KGDialGenerator (sampler : Type) : Type := {
  conf_thres : R;
  (** [tokenizer.eos_token] *)
  eos_token : string;
  (** [tokenizer.encode(text, return_tensors="pt")], its one row *)
  encode : string → list nat;
  generate : sampler → list nat → list nat * sampler;
  (** [tokenizer.decode(ids, skip_special_tokens=True)] *)
  decode : list nat → string
}.

Arguments conf_thres {sampler} _.
Arguments eos_token {sampler} _.
Arguments encode {sampler} _ _.
Arguments generate {sampler} _ _ _.
Arguments decode {sampler} _ _.

(** The default [conf_thres: float = 0.3] of [__init__]. *)
Definition default_conf_thres : R := 0.3%R.

Section Generator.
Context {sampler : Type}.
Variable self : KGDialGenerator sampler.

(** Lines 55-59. *)
Definition context_plus_gk (prev_utterance : string) (triplets : list string) : string :=
  match triplets with
  | [] => (prev_utterance ++ eos_token self)%string
  | _ :: _ =>
      (((String.concat " " triplets ++ " <SEP> ") ++ prev_utterance)
       ++ eos_token self)%string
  end.

(** Lines 54-69: the utterance generated for one item. *)
Definition generate_item (g : sampler) (prev_utterance : string)
    (triplets : list string) (conf : R) : string * sampler :=
  if Rlt_dec (conf_thres self) conf then
    let input_ids := encode self (context_plus_gk prev_utterance triplets) in
    let '(generated_ids, g') := generate self g input_ids in
    (decode self (drop (length input_ids) generated_ids), g')
  else ("", g).

(** The loop of lines 52-70 over
    [zip(prev_utterances_batch, triplets_batch, conf_batch)]. *)
Fixpoint generate_loop (items : list (string * list string * R)) (g : sampler)
    (generated_utterances_batch : list string) : list string * sampler :=
  match items with
  | [] => (generated_utterances_batch, g)
  | (prev_utterance, triplets, conf) :: rest =>
      let '(generated_utterance, g') := generate_item g prev_utterance triplets conf in
      generate_loop rest g' (generated_utterances_batch ++ [generated_utterance])
  end.

(** [KGDialGenerator.__call__]: the pair it returns, and the sampler state
    it leaves. *)
Definition KGDialGenerator_call (g : sampler) (prev_utterances_batch : list string)
    (triplets_batch : list (list string)) (conf_batch : list R) :
    (list string * list R) * sampler :=
  let '(generated_utterances_batch, g') :=
    generate_loop (zip (zip prev_utterances_batch triplets_batch) conf_batch) g [] in
  ((generated_utterances_batch, conf_batch), g').

End Generator.

(** A generator over a counter of samplings: the model echoes the prompt
    and appends the counter as the one sampled token. *)
Definition counting_generator (thres : R) : KGDialGenerator nat :=
  {| conf_thres := thres;
     eos_token := "<EOS>";
     encode := λ text, [String.length text];
     generate := λ n input_ids, (input_ids ++ [n], S n);
     decode := λ ids, match ids with [n] => "sample" | _ => "?" end |}.

(** * Properties *)

(** ** The result monad *)

Lemma bind_Ok_inv {A B} (m : result A) (f : A → result B) (b : B) :
  m ≫= f = Ok b → ∃ a, m = Ok a ∧ f a = Ok b.
Proof. destruct m as [a|e]; [eauto | discriminate]. Qed.

Lemma bind_Ok {A B} (m : result A) (f : A → result B) (a : A) :
  m = Ok a → m ≫= f = f a.
Proof. by intros ->. Qed.

Lemma comprehension_lookup {A B} (f : A → result B) (l : list A) (ys : list B) :
  comprehension f l = Ok ys →
  length ys = length l
  ∧ ∀ i x, l !! i = Some x → ∃ y, f x = Ok y ∧ ys !! i = Some y.
Proof.
  revert ys. induction l as [|x l IH]; intros ys Hc; simpl in Hc.
  - injection Hc as <-. split; [done | by intros i x].
  - apply bind_Ok_inv in Hc as (y & Hy & Hc).
    apply bind_Ok_inv in Hc as (ys' & Hys & Hc). injection Hc as <-.
    destruct (IH _ Hys) as [Hlen Hlook]. split; [simpl; by f_equal |].
    intros [|i] x'; simpl; [intros [= <-]; eauto | apply Hlook].
Qed.

Lemma comprehension_returns {A B} (f : A → result B) (l : list A) :
  (∀ x, x ∈ l → returns (f x)) → returns (comprehension f l).
Proof.
  induction l as [|x l IH]; intros Hall; [by eexists |].
  destruct (Hall x) as [y Hy]; [left |].
  destruct IH as [ys Hys]; [intros z Hz; apply Hall; by right |].
  exists (y :: ys). simpl. by rewrite Hy, Hys.
Qed.

(** ** The batch loop *)

Section Batch.
Variable io : set_iteration.
Variable self : DialPathRanker.

Lemma rank_loop_comprehension items paths_batch conf_batch :
  rank_loop io self items paths_batch conf_batch =
  outs ← comprehension (λ it, rank_item io self it.1 it.2) items;
  Ok (paths_batch ++ outs.*1, conf_batch ++ outs.*2).
Proof.
  revert paths_batch conf_batch.
  induction items as [|[u es] items IH]; intros ps cs; simpl.
  - by rewrite !app_nil_r.
  - destruct (rank_item io self u es) as [[p c]|e]; simpl; [|done].
    rewrite IH. destruct (comprehension _ items) as [outs|e]; simpl; [|done].
    by rewrite <- !app_assoc.
Qed.

(** Position [i] of both outputs is what the loop body produced for
    position [i] of the inputs. *)
Lemma call_positional us ebatch ps cs :
  DialPathRanker_call io self us ebatch = Ok (ps, cs) →
  length ps = length us `min` length ebatch
  ∧ length cs = length us `min` length ebatch
  ∧ ∀ i u es, us !! i = Some u → ebatch !! i = Some es →
      ∃ p c, rank_item io self u es = Ok (p, c)
             ∧ ps !! i = Some p ∧ cs !! i = Some c.
Proof.
  unfold DialPathRanker_call. rewrite rank_loop_comprehension.
  intros Hc. apply bind_Ok_inv in Hc as (outs & Houts & Hc).
  simpl in Hc. injection Hc as <- <-.
  apply comprehension_lookup in Houts as [Hlen Hlook].
  rewrite length_zip in Hlen. rewrite !length_fmap.
  split; [done |]. split; [done |].
  intros i u es Hu Hes.
  destruct (Hlook i (u, es)) as ([p c] & Hitem & Hout).
  { apply lookup_zip_with_Some. eauto. }
  exists p, c. rewrite !list_lookup_fmap, Hout. eauto.
Qed.

Lemma call_returns us ebatch :
  (∀ u es, (u, es) ∈ zip us ebatch → returns (rank_item io self u es)) →
  returns (DialPathRanker_call io self us ebatch).
Proof.
  intros Hall. unfold DialPathRanker_call. rewrite rank_loop_comprehension.
  destruct (comprehension_returns (λ it, rank_item io self it.1 it.2) (zip us ebatch))
    as [outs ->]; [intros [u es]; apply Hall |].
  by eexists.
Qed.

Lemma zip_truncate (us : list string) (ebatch : list (list entity_item)) :
  zip us ebatch
  = zip (take (length us `min` length ebatch) us)
        (take (length us `min` length ebatch) ebatch).
Proof.
  revert ebatch. induction us as [|u us IH]; intros [|es ebatch]; simpl; try done.
  by rewrite <- IH.
Qed.

End Batch.

(** ** One batch item *)

Section Item.
Variable io : set_iteration.
Variable self : DialPathRanker.

Lemma rank_item_seeded utterance first rest entity entity_types found :
  seed_entity first = Ok entity →
  seed_types self entity = Ok entity_types →
  candidate_paths io self entity_types = Ok found →
  rank_item io self utterance (first :: rest) =
  out ← retrieve self utterance entity found;
  match out.1 with
  | chosen :: _ => Ok (chosen, out.2)
  | [] => Ok ([], 0%R)
  end.
Proof.
  intros He Ht Hc. unfold rank_item. rewrite He. simpl. rewrite Ht. simpl.
  rewrite Hc. simpl. by destruct (retrieve _ _ _ _) as [[rps c]|e].
Qed.

Lemma retrieve_nonempty utterance entity found retrieved_paths retrieved_rels :
  found ≠ [] →
  wp_first (use_api_requester self)
    (wiki_retrieve_paths self entity (top_paths self utterance found))
  = Ok (retrieved_paths, retrieved_rels) →
  retrieve self utterance entity found =
  match retrieved_paths with
  | [] => Ok ([], 0%R)
  | _ :: _ =>
      chosen_rels ← item0 retrieved_rels;
      conf ← confidence self chosen_rels;
      Ok (retrieved_paths, conf)
  end.
Proof.
  intros Hne Hwp. unfold retrieve. destruct found as [|p found]; [done |].
  rewrite Hwp. simpl. by destruct retrieved_paths.
Qed.

(** What the loop body yields once the retrieval has answered. *)
Lemma rank_item_retrieves utterance entities_list retrieved_paths retrieved_rels :
  retrieves io self utterance entities_list retrieved_paths retrieved_rels →
  rank_item io self utterance entities_list =
  match retrieved_paths with
  | [] => Ok ([], 0%R)
  | chosen :: _ =>
      chosen_rels ← item0 retrieved_rels;
      conf ← confidence self chosen_rels;
      Ok (chosen, conf)
  end.
Proof.
  intros (first & rest & entity & tys & found & -> & He & Ht & Hc & Hne & Hwp).
  rewrite (rank_item_seeded _ _ _ _ _ _ He Ht Hc).
  rewrite (retrieve_nonempty _ _ _ _ _ Hne Hwp).
  destruct retrieved_paths as [|chosen rps]; [done |].
  destruct (item0 retrieved_rels) as [rels|e]; [|done]. simpl.
  by destruct (confidence self rels).
Qed.

(** The three ways in which the loop body returns. *)
Lemma rank_item_inv utterance entities_list p c :
  rank_item io self utterance entities_list = Ok (p, c) →
  (entities_list = [] ∧ p = [] ∧ c = 0.4%R)
  ∨ (entities_list ≠ [] ∧ p = [] ∧ c = 0%R)
  ∨ (∃ rps rels rrs,
       retrieves io self utterance entities_list (p :: rps) (rels :: rrs)
       ∧ confidence self rels = Ok c).
Proof.
  destruct entities_list as [|first rest]; simpl.
  { intros [= <- <-]. by left. }
  intros H. right.
  apply bind_Ok_inv in H as (entity & He & H).
  apply bind_Ok_inv in H as (tys & Ht & H).
  apply bind_Ok_inv in H as (found & Hc & H).
  apply bind_Ok_inv in H as ([rps conf] & Hr & H).
  destruct rps as [|chosen rps]; [injection H as <- <-; by left |].
  injection H as -> ->. right.
  unfold retrieve in Hr. destruct found as [|q found]; [discriminate |].
  apply bind_Ok_inv in Hr as ([rps' rrs] & Hwp & Hr).
  destruct rps' as [|chosen' rps']; [discriminate |].
  apply bind_Ok_inv in Hr as (rels & Hrels & Hr).
  apply bind_Ok_inv in Hr as (conf & Hconf & Hr).
  injection Hr as -> -> ->.
  destruct rrs as [|rels' rrs]; [discriminate |]. injection Hrels as ->.
  exists rps, rels, rrs. split; [|done].
  by exists first, rest, entity, tys, (q :: found).
Qed.

End Item.

(** ** C5: an empty entity list *)

(** C5.  For a batch item whose entity list is empty the loop body yields
    exactly the empty path and the confidence 0.4; and in every batch the
    call returns with, at each position whose entity list is empty, the
    empty path and 0.4. *)
Theorem empty_entities_give_prior (io : set_iteration) (self : DialPathRanker) :
  (∀ utterance, rank_item io self utterance [] = Ok ([], 0.4%R))
  ∧ (∀ us ebatch ps cs i,
       DialPathRanker_call io self us ebatch = Ok (ps, cs) →
       i < length us → ebatch !! i = Some [] →
       ps !! i = Some [] ∧ cs !! i = Some 0.4%R)
  ∧ (∀ us n,
       DialPathRanker_call io self us (replicate n [])
       = Ok (replicate (length us `min` n) [], replicate (length us `min` n) 0.4%R)).
Proof.
  split; [done |]. split.
  - intros us ebatch ps cs i Hcall Hi Hes.
    apply call_positional in Hcall as (_ & _ & Hpos).
    destruct (lookup_lt_is_Some_2 us i Hi) as [u Hu].
    destruct (Hpos i u [] Hu Hes) as (p & c & Hitem & Hp & Hc).
    simpl in Hitem. injection Hitem as <- <-. done.
  - intros us n. unfold DialPathRanker_call. rewrite rank_loop_comprehension.
    assert (Hout : comprehension (λ it, rank_item io self it.1 it.2)
                     (zip us (replicate n []))
                   = Ok (replicate (length us `min` n) ([], 0.4%R))).
    { revert n. induction us as [|u us IH]; intros [|n]; simpl; try done.
      by rewrite IH. }
    rewrite Hout. simpl. by rewrite !fmap_replicate.
Qed.

Lemma empty_entities_give_prior_witness :
  DialPathRanker_call canonical_iteration example_ranker ["hello"; "again"] [[]; []]
  = Ok ([[]; []], [0.4%R; 0.4%R])
  ∧ ([["P31"]; []] : list path) !! 1 = Some []
  ∧ [example_confidence; 0.4%R] !! 1 = Some 0.4%R.
Proof.
  pose proof (empty_entities_give_prior canonical_iteration example_ranker)
    as (_ & Hpos & Hall).
  split; [exact (Hall ["hello"; "again"] 2) |].
  apply (Hpos ["hi"; "again"] [[Entity "Q1"]; []]
           [["P31"]; []] [example_confidence; 0.4%R] 1).
  - vm_compute. reflexivity.
  - simpl. lia.
  - reflexivity.
Defined.

(** ** No candidate, or no retrieved path *)

(** For an item with a seed entity, when lines 115-150 complete with an
    empty candidate list, or when the graph service answers the retrieval
    with no path, the loop body yields exactly the empty path and the
    confidence 0.0. *)
Theorem no_path_gives_zero (io : set_iteration) (self : DialPathRanker)
    (utterance : string) (first : entity_item) (rest : list entity_item)
    (entity : string) (entity_types : gset string) (found : list path) :
  seed_entity first = Ok entity →
  seed_types self entity = Ok entity_types →
  candidate_paths io self entity_types = Ok found →
  (found = []
   ∨ ∃ retrieved_rels,
       wp_first (use_api_requester self)
         (wiki_retrieve_paths self entity (top_paths self utterance found))
       = Ok ([], retrieved_rels)) →
  rank_item io self utterance (first :: rest) = Ok ([], 0%R).
Proof.
  intros He Ht Hc Hcase.
  rewrite (rank_item_seeded io self _ _ _ _ _ _ He Ht Hc).
  destruct Hcase as [-> | [rrs Hwp]]; [done |].
  destruct found as [|q found]; [done |].
  assert (Hne : q :: found ≠ []) by done.
  by rewrite (retrieve_nonempty self _ _ _ _ _ Hne Hwp).
Qed.

Lemma no_path_gives_zero_witness :
  rank_item canonical_iteration unknown_type_ranker "hi" [Entity "Q1"] = Ok ([], 0%R)
  ∧ rank_item canonical_iteration unretrievable_ranker "hi" [EntityList ["Q1"; "Q2"]]
    = Ok ([], 0%R).
Proof.
  split.
  - apply (no_path_gives_zero canonical_iteration unknown_type_ranker
             "hi" (Entity "Q1") [] "Q1" {[ "TypeZ" ]} []).
    + reflexivity.
    + vm_compute. reflexivity.
    + vm_compute. reflexivity.
    + left. reflexivity.
  - apply (no_path_gives_zero canonical_iteration unretrievable_ranker
             "hi" (EntityList ["Q1"; "Q2"]) [] "Q1" {[ "TypeA" ]} [["P31"]; ["P21"]]).
    + reflexivity.
    + vm_compute. reflexivity.
    + vm_compute. reflexivity.
    + right. exists []. vm_compute. reflexivity.
Defined.

(** ** C9: the returned path is the first retrieved path *)

(** C9.  Every non-empty path of the output batch is the first element of
    the list of retrieved paths with which the graph service answered the
    [retrieve_paths] query made for the seed entity of the item at the
    same position. *)
Theorem output_path_is_first_retrieved (io : set_iteration) (self : DialPathRanker)
    (us : list string) (ebatch : list (list entity_item))
    (ps : list path) (cs : list R) (i : nat) (p : path) :
  DialPathRanker_call io self us ebatch = Ok (ps, cs) →
  ps !! i = Some p →
  p ≠ [] →
  ∃ utterance entities_list retrieved_paths retrieved_rels,
    us !! i = Some utterance
    ∧ ebatch !! i = Some entities_list
    ∧ retrieves io self utterance entities_list retrieved_paths retrieved_rels
    ∧ retrieved_paths !! 0 = Some p.
Proof.
  intros Hcall Hp Hne.
  apply call_positional in Hcall as (Hlen & _ & Hpos).
  apply lookup_lt_Some in Hp as Hi. rewrite Hlen in Hi.
  destruct (lookup_lt_is_Some_2 us i ltac:(lia)) as [u Hu].
  destruct (lookup_lt_is_Some_2 ebatch i ltac:(lia)) as [es Hes].
  destruct (Hpos i u es Hu Hes) as (p' & c & Hitem & Hp' & _).
  rewrite Hp in Hp'. injection Hp' as <-.
  apply rank_item_inv in Hitem as [(_ & -> & _) | [(_ & -> & _) | Hret]]; [done.. |].
  destruct Hret as (rps & rels & rrs & Hret & _).
  by exists u, es, (p :: rps), (rels :: rrs).
Qed.

Lemma example_call :
  DialPathRanker_call canonical_iteration example_ranker ["hi"] [[Entity "Q1"]]
  = Ok ([["P31"]], [example_confidence]).
Proof. vm_compute. reflexivity. Qed.

Lemma output_path_is_first_retrieved_witness :
  ∃ utterance entities_list retrieved_paths retrieved_rels,
    ["hi"] !! 0 = Some utterance
    ∧ [[Entity "Q1"]] !! 0 = Some entities_list
    ∧ retrieves canonical_iteration example_ranker utterance entities_list
        retrieved_paths retrieved_rels
    ∧ retrieved_paths !! 0 = Some ["P31"].
Proof.
  apply (output_path_is_first_retrieved canonical_iteration example_ranker
           ["hi"] [[Entity "Q1"]] [["P31"]] [example_confidence] 0 ["P31"]).
  - vm_compute. reflexivity.
  - reflexivity.
  - discriminate.
Defined.

(** ** C10: batches of different lengths *)

(** C10.  When the two input batches differ in length the call behaves as
    on their common prefix: no error comes from the mismatch (the call
    returns whenever the loop body returns on every processed item), and
    both output lists have the length of the shorter input, position by
    position the results of the processed items. *)
Theorem call_truncates_to_shorter (io : set_iteration) (self : DialPathRanker)
    (us : list string) (ebatch : list (list entity_item)) :
  let n := length us `min` length ebatch in
  DialPathRanker_call io self us ebatch
  = DialPathRanker_call io self (take n us) (take n ebatch)
  ∧ ((∀ i u es, i < n → us !! i = Some u → ebatch !! i = Some es →
        returns (rank_item io self u es)) →
     returns (DialPathRanker_call io self us ebatch))
  ∧ (∀ ps cs, DialPathRanker_call io self us ebatch = Ok (ps, cs) →
       length ps = n ∧ length cs = n
       ∧ ∀ i u es, us !! i = Some u → ebatch !! i = Some es →
           ∃ p c, rank_item io self u es = Ok (p, c)
                  ∧ ps !! i = Some p ∧ cs !! i = Some c).
Proof.
  intros n. split; [|split].
  - unfold DialPathRanker_call. by rewrite (zip_truncate us ebatch).
  - intros Hall. apply call_returns. intros u es Hin.
    apply list_elem_of_lookup in Hin as [i Hi].
    apply lookup_zip_with_Some in Hi as (u' & es' & [= <- <-] & Hu & Hes).
    apply (Hall i); [|done..].
    apply lookup_lt_Some in Hu. apply lookup_lt_Some in Hes. lia.
  - intros ps cs Hcall. by apply call_positional in Hcall.
Qed.

Lemma call_truncates_to_shorter_witness :
  DialPathRanker_call canonical_iteration example_ranker
    ["hi"; "there"; "again"] [[Entity "Q1"]; []]
  = DialPathRanker_call canonical_iteration example_ranker
      ["hi"; "there"] [[Entity "Q1"]; []]
  ∧ length [["P31"]; []] = 2 ∧ length [example_confidence; 0.4%R] = 2.
Proof.
  pose proof (call_truncates_to_shorter canonical_iteration example_ranker
                ["hi"; "there"; "again"] [[Entity "Q1"]; []]) as (Heq & _ & Hlen).
  split; [exact Heq |].
  destruct (Hlen [["P31"]; []] [example_confidence; 0.4%R]) as (H1 & H2 & _).
  - vm_compute. reflexivity.
  - split; [exact H1 | exact H2].
Defined.

(** ** Sorting by score *)

Lemma insert_desc_perm x l : insert_desc x l ≡ₚ x :: l.
Proof.
  induction l as [|y l IH]; simpl; [done |].
  destruct (Qclt_le_dec x.2 y.2); [|done].
  rewrite IH. apply perm_swap.
Qed.

Lemma sorted_desc_perm l : sorted_desc l ≡ₚ l.
Proof.
  induction l as [|x l IH]; simpl; [done |].
  unfold sorted_desc in IH. by rewrite insert_desc_perm, IH.
Qed.

Lemma insert_desc_sorted x l :
  StronglySorted score_ge l → StronglySorted score_ge (insert_desc x l).
Proof.
  induction 1 as [|y l Hl IH Hy]; simpl.
  - repeat constructor.
  - destruct (Qclt_le_dec x.2 y.2) as [Hlt|Hle].
    + constructor; [done |].
      rewrite insert_desc_perm. constructor; [|done].
      by apply Qclt_le_weak.
    + constructor; [by constructor |].
      constructor; [done |].
      eapply Forall_impl; [exact Hy |]. intros z Hz. unfold score_ge in *.
      by eapply Qcle_trans.
Qed.

Lemma sorted_desc_sorted l : StronglySorted score_ge (sorted_desc l).
Proof.
  induction l as [|x l IH]; simpl; [constructor |].
  by apply insert_desc_sorted.
Qed.

(** The first pair of the sorted list has a greatest score. *)
Lemma sorted_desc_head l x rest :
  sorted_desc l = x :: rest → ∀ y, y ∈ l → (y.2 ≤ x.2)%Qc.
Proof.
  intros Heq y Hy.
  pose proof (sorted_desc_sorted l) as Hs. rewrite Heq in Hs.
  rewrite <- (sorted_desc_perm l), Heq in Hy.
  apply StronglySorted_inv in Hs as [_ Hall].
  apply elem_of_cons in Hy as [-> | Hy]; [apply Qcle_refl |].
  rewrite Forall_forall in Hall. by apply Hall.
Qed.

(** ** The candidate paths *)

Section Candidates.
Variable io : set_iteration.
Variable self : DialPathRanker.

Lemma elem_of_set_to_list `{Countable A} (s : gset A) (x : A) :
  x ∈ set_to_list io s ↔ x ∈ s.
Proof.
  unfold set_to_list. by rewrite (iter_order_perm io A (elements s)), elem_of_elements.
Qed.

Lemma NoDup_set_to_list `{Countable A} (s : gset A) : NoDup (set_to_list io s).
Proof.
  unfold set_to_list. rewrite (iter_order_perm io A (elements s)).
  apply NoDup_elements.
Qed.

Lemma set_to_list_nil `{Countable A} (s : gset A) : set_to_list io s = [] ↔ s = ∅.
Proof.
  split.
  - intros Hnil. apply set_eq. intros x. rewrite <- elem_of_set_to_list, Hnil.
    split; [by intros ?%elem_of_nil | by intros ?%not_elem_of_empty].
  - intros ->. unfold set_to_list. rewrite elements_empty.
    apply Permutation_nil_r, iter_order_perm.
Qed.

Lemma elem_of_foldl_union `{Countable A} {B} (f : B → gset A) (l : list B)
    (acc : gset A) (x : A) :
  x ∈ foldl (λ s b, s ∪ f b) acc l ↔ x ∈ acc ∨ ∃ b, b ∈ l ∧ x ∈ f b.
Proof.
  revert acc. induction l as [|b l IH]; intros acc; simpl.
  - split; [by left | intros [? | (b & Hb & _)]; [done | by apply elem_of_nil in Hb]].
  - rewrite IH, elem_of_union. split.
    + intros [[? | ?] | (b' & Hb' & ?)]; [by left | right; exists b; split; [left | done] |].
      right. exists b'. split; [by right | done].
    + intros [? | (b' & Hb' & ?)]; [by left; left |].
      apply elem_of_cons in Hb' as [-> | Hb']; [by left; right |].
      right. by exists b'.
Qed.

(** The scored candidates are the table entries of the entity types. *)
Lemma elem_of_scored_candidates entity_types x :
  x ∈ scored_candidates io self entity_types
  ↔ ∃ t, t ∈ entity_types ∧ x ∈ paths_of_type self t.
Proof.
  unfold scored_candidates. rewrite elem_of_foldl_union. split.
  - intros [?%not_elem_of_empty | (t & Ht & Hx)]; [done |].
    apply elem_of_set_to_list in Ht. apply elem_of_list_to_set in Hx. eauto.
  - intros (t & Ht & Hx). right. exists t.
    split; [by apply elem_of_set_to_list | by apply elem_of_list_to_set].
Qed.

Lemma elem_of_plain_candidates entity_types p :
  p ∈ plain_candidates io self entity_types
  ↔ ∃ t s, t ∈ entity_types ∧ (p, s) ∈ paths_of_type self t.
Proof.
  unfold plain_candidates. rewrite elem_of_foldl_union. split.
  - intros [?%not_elem_of_empty | (t & Ht & Hx)]; [done |].
    apply elem_of_set_to_list in Ht.
    apply elem_of_list_to_set, list_elem_of_fmap in Hx as ([p' s] & -> & Hx).
    by exists t, s.
  - intros (t & s & Ht & Hx). right. exists t.
    split; [by apply elem_of_set_to_list |].
    apply elem_of_list_to_set, list_elem_of_fmap. by exists (p, s).
Qed.

Lemma ranked_by_stat_perm entity_types :
  ranked_by_stat io self entity_types
  ≡ₚ elements (scored_candidates io self entity_types).
Proof.
  unfold ranked_by_stat. rewrite sorted_desc_perm. apply iter_order_perm.
Qed.

(** The scan of lines 134-137 either meets a group that intersects the
    entity types, and stops on the unbound name, or changes nothing. *)
Lemma scan_subclasses_raises entity_types subclasses add_entity_types :
  Exists (λ subcls, entity_types ∩ subclass_group self subcls ≠ ∅) subclasses →
  scan_subclasses self entity_types subclasses add_entity_types = Raise NameError.
Proof.
  induction 1 as [subcls rest Hx | subcls rest _ IH]; simpl.
  - by rewrite bool_decide_eq_true_2.
  - by destruct (bool_decide _).
Qed.

Lemma scan_subclasses_idle entity_types subclasses add_entity_types :
  Forall (λ subcls, entity_types ∩ subclass_group self subcls = ∅) subclasses →
  scan_subclasses self entity_types subclasses add_entity_types = Ok add_entity_types.
Proof.
  induction 1 as [|subcls rest Hx _ IH]; simpl; [done |].
  rewrite bool_decide_eq_false_2; [done |]. by intros [].
Qed.

Lemma is_empty_as_list c : is_empty c = true ↔ as_list io c = [].
Proof.
  destruct c as [l|s]; simpl.
  - by rewrite bool_decide_eq_true.
  - by rewrite bool_decide_eq_true, set_to_list_nil.
Qed.

(** Whenever lines 115-150 complete, the candidate list is the one
    collected from the entity types themselves. *)
Lemma candidate_paths_collect entity_types found :
  candidate_paths io self entity_types = Ok found →
  found = as_list io (collect_candidates io self entity_types).
Proof.
  unfold candidate_paths, fallback.
  destruct (is_empty _); simpl; [|by intros [= <-]].
  destruct (scan_subclasses _ _ _ _); simpl; [by intros [= <-] | done].
Qed.

(** The fallback never yields a candidate. *)
Lemma fallback_never_expands entity_types :
  is_empty (collect_candidates io self entity_types) = true →
  (Exists (λ subcls, entity_types ∩ subclass_group self subcls ≠ ∅)
     (find_subclasses io self entity_types) →
   candidate_paths io self entity_types = Raise NameError)
  ∧ (Forall (λ subcls, entity_types ∩ subclass_group self subcls = ∅)
       (find_subclasses io self entity_types) →
     candidate_paths io self entity_types = Ok []).
Proof.
  intros Hempty. unfold candidate_paths, fallback. rewrite Hempty. split.
  - intros Hex. by rewrite scan_subclasses_raises.
  - intros Hall. rewrite scan_subclasses_idle by done. simpl.
    by apply is_empty_as_list in Hempty as ->.
Qed.

End Candidates.

(** ** C8: duplicates among the candidates *)

(** C8, as the code has it.  In ranking mode the candidate list holds each
    path once.  In statistic mode the set that is built holds
    [(path, score)] tuples: each tuple occurs once, so that a path is
    repeated in the candidate list only under different scores.  In both
    modes the candidates are exactly the table entries of the entity
    types. *)
Theorem candidates_deduplicated (io : set_iteration) (self : DialPathRanker)
    (entity_types : gset string) (found : list path) :
  candidate_paths io self entity_types = Ok found →
  (use_path_stat self = false →
     NoDup found
     ∧ ∀ p, p ∈ found ↔ ∃ t s, t ∈ entity_types ∧ (p, s) ∈ paths_of_type self t)
  ∧ (use_path_stat self = true →
       ∃ scored : list (path * Qc),
         found = scored.*1 ∧ NoDup scored
         ∧ ∀ x, x ∈ scored ↔ ∃ t, t ∈ entity_types ∧ x ∈ paths_of_type self t).
Proof.
  intros Hc. apply candidate_paths_collect in Hc as ->.
  unfold collect_candidates. split; intros ->; simpl.
  - split; [apply NoDup_set_to_list |].
    intros p. by rewrite elem_of_set_to_list, elem_of_plain_candidates.
  - exists (ranked_by_stat io self entity_types). split; [done |].
    split.
    + rewrite ranked_by_stat_perm. apply NoDup_elements.
    + intros x. by rewrite ranked_by_stat_perm, elem_of_elements,
        elem_of_scored_candidates.
Qed.

Lemma candidates_deduplicated_witness :
  NoDup [["P31"]; ["P21"]]
  ∧ ∃ scored : list (path * Qc), [["P31"]; ["P31"]] = scored.*1 ∧ NoDup scored.
Proof.
  assert (Hrank : candidate_paths canonical_iteration unretrievable_ranker {[ "TypeA" ]}
                  = Ok [["P31"]; ["P21"]]) by (vm_compute; reflexivity).
  assert (Hstat : candidate_paths canonical_iteration two_scores_ranker
                    {[ "TypeA"; "TypeB" ]}
                  = Ok [["P31"]; ["P31"]]) by (vm_compute; reflexivity).
  split.
  - apply (candidates_deduplicated _ _ _ _ Hrank). reflexivity.
  - destruct (candidates_deduplicated _ _ _ _ Hstat) as [_ Hscored].
    destruct (Hscored eq_refl) as (scored & Heq & Hnd & _).
    exists scored. split; [exact Heq | exact Hnd].
Defined.

(** C8, as stated, fails in statistic mode: with two types that list the
    same path under different scores the candidate list sent to the graph
    retrieval holds that path twice. *)
Lemma stat_candidates_repeat_path :
  use_path_stat two_scores_ranker = true
  ∧ seed_types two_scores_ranker "Q1" = Ok {[ "TypeA"; "TypeB" ]}
  ∧ ∃ found,
      candidate_paths canonical_iteration two_scores_ranker {[ "TypeA"; "TypeB" ]}
      = Ok found
      ∧ top_paths two_scores_ranker "hi" found = [["P31"]; ["P31"]]
      ∧ ¬ NoDup found.
Proof.
  split; [reflexivity |]. split; [vm_compute; reflexivity |].
  exists [["P31"]; ["P31"]]. split; [vm_compute; reflexivity |].
  split; [reflexivity |].
  intros Hnd. apply NoDup_cons in Hnd as [Hnotin _]. apply Hnotin. left.
Qed.

(** ** C7: statistic mode *)

(** C7, as the code has it.  In statistic mode the paths sent to the graph
    retrieval are the candidates themselves, in the order of a descending
    sort of the table's [(path, score)] tuples on their score, and the
    first of them carries a highest score among the table entries of the
    seed entity's types. *)
Theorem stat_mode_first_is_top_scored (io : set_iteration) (self : DialPathRanker)
    (utterance : string) (entity_types : gset string) (found : list path) :
  use_path_stat self = true →
  candidate_paths io self entity_types = Ok found →
  top_paths self utterance found = found
  ∧ (∃ scored : list (path * Qc),
       found = scored.*1
       ∧ StronglySorted score_ge scored
       ∧ ∀ x, x ∈ scored ↔ ∃ t, t ∈ entity_types ∧ x ∈ paths_of_type self t)
  ∧ (∀ p rest, found = p :: rest → top_scored self entity_types p).
Proof.
  intros Hstat Hc. apply candidate_paths_collect in Hc as ->.
  unfold top_paths, collect_candidates. rewrite Hstat. simpl.
  assert (Hin : ∀ x, x ∈ ranked_by_stat io self entity_types
                     ↔ ∃ t, t ∈ entity_types ∧ x ∈ paths_of_type self t).
  { intros x. by rewrite ranked_by_stat_perm, elem_of_elements,
      elem_of_scored_candidates. }
  split; [done |]. split.
  - exists (ranked_by_stat io self entity_types).
    split; [done |]. split; [apply sorted_desc_sorted | exact Hin].
  - intros p rest Heq.
    destruct (ranked_by_stat io self entity_types) as [|[p' s] scored] eqn:Hr;
      [discriminate |].
    injection Heq as -> _. exists s. split.
    + apply Hin. left.
    + intros t q s' Ht Hq.
      apply (sorted_desc_head _ _ _ Hr (q, s')).
      apply elem_of_set_to_list, elem_of_scored_candidates. eauto.
Qed.

Lemma stat_mode_first_is_top_scored_witness :
  top_scored example_ranker {[ "TypeA" ]} ["P31"].
Proof.
  refine (proj2 (proj2 (stat_mode_first_is_top_scored canonical_iteration
                          example_ranker "hi" {[ "TypeA" ]} [["P31"]; ["P21"]] _ _))
            ["P31"] [["P21"]] _).
  - reflexivity.
  - vm_compute. reflexivity.
  - reflexivity.
Defined.

(** C7, as stated, fails for the returned path: it is the first path the
    graph service retrieves, and when the service confirms only a
    lower-scored candidate, that one is returned. *)
Lemma returned_path_not_top_scored :
  use_path_stat second_best_ranker = true
  ∧ seed_types second_best_ranker "Q1" = Ok {[ "TypeA" ]}
  ∧ (∃ c, rank_item canonical_iteration second_best_ranker "hi" [Entity "Q1"]
          = Ok (["P21"], c))
  ∧ ¬ top_scored second_best_ranker {[ "TypeA" ]} ["P21"].
Proof.
  split; [reflexivity |]. split; [vm_compute; reflexivity |]. split.
  - eexists. vm_compute. reflexivity.
  - intros (s & (t & Ht & Hin) & Hmax).
    apply elem_of_singleton in Ht as ->.
    assert (Htable : paths_of_type second_best_ranker "TypeA"
                     = [(["P31"], Q2Qc (9 # 10)); (["P21"], Q2Qc (1 # 2))])
      by (vm_compute; reflexivity).
    rewrite Htable in Hin.
    apply elem_of_cons in Hin as [[=] | Hin].
    apply elem_of_cons in Hin as [[= ->] | Hin]; [|by apply elem_of_nil in Hin].
    specialize (Hmax "TypeA" ["P31"] (Q2Qc (9 # 10))).
    rewrite Htable in Hmax.
    assert (Hle : (Q2Qc (9 # 10) ≤ Q2Qc (1 # 2))%Qc).
    { apply Hmax; [by apply elem_of_singleton | left]. }
    revert Hle. vm_compute. intros Hle. by apply Hle.
Qed.

(** ** C2: the fallback *)

(** C2, on the code.  When the direct candidates are empty, the fallback
    never enlarges anything: if some subclass group meets the entity types
    the item stops with [NameError] on the unbound name of line 137, and
    otherwise the candidates are collected again from the unchanged entity
    types and the item yields the empty path with confidence 0.0. *)
Theorem fallback_never_yields_candidates (io : set_iteration) (self : DialPathRanker)
    (utterance : string) (first : entity_item) (rest : list entity_item)
    (entity : string) (entity_types : gset string) :
  seed_entity first = Ok entity →
  seed_types self entity = Ok entity_types →
  is_empty (collect_candidates io self entity_types) = true →
  (Exists (λ subcls, entity_types ∩ subclass_group self subcls ≠ ∅)
     (find_subclasses io self entity_types) →
   rank_item io self utterance (first :: rest) = Raise NameError)
  ∧ (Forall (λ subcls, entity_types ∩ subclass_group self subcls = ∅)
       (find_subclasses io self entity_types) →
     rank_item io self utterance (first :: rest) = Ok ([], 0%R)).
Proof.
  intros He Ht Hempty.
  destruct (fallback_never_expands io self entity_types Hempty) as [Hraise Hidle].
  split; intros Hsub.
  - unfold rank_item. rewrite He. simpl. rewrite Ht. simpl.
    by rewrite (Hraise Hsub).
  - by rewrite (rank_item_seeded io self _ _ _ _ _ _ He Ht (Hidle Hsub)).
Qed.

Lemma fallback_never_yields_candidates_witness :
  rank_item canonical_iteration (fallback_ranker true) "hi" [Entity "Q1"]
  = Raise NameError
  ∧ claimed_fallback_candidates canonical_iteration (fallback_ranker true) {[ "T" ]}
    = [["P31"]]
  ∧ rank_item canonical_iteration (fallback_ranker false) "hi" [Entity "Q1"]
    = Raise NameError
  ∧ claimed_fallback_candidates canonical_iteration (fallback_ranker false) {[ "T" ]}
    = [["P31"]].
Proof.
  split; [|split; [vm_compute; reflexivity |]].
  - refine (proj1 (fallback_never_yields_candidates canonical_iteration
                     (fallback_ranker true) "hi" (Entity "Q1") [] "Q1" {[ "T" ]}
                     _ _ _) _).
    + reflexivity.
    + vm_compute. reflexivity.
    + vm_compute. reflexivity.
    + apply Exists_cons_hd. vm_compute. discriminate.
  - split; [|vm_compute; reflexivity].
    refine (proj1 (fallback_never_yields_candidates canonical_iteration
                     (fallback_ranker false) "hi" (Entity "Q1") [] "Q1" {[ "T" ]}
                     _ _ _) _).
    + reflexivity.
    + vm_compute. reflexivity.
    + vm_compute. reflexivity.
    + apply Exists_cons_hd. vm_compute. discriminate.
Defined.

(** ** C6: an empty candidate set after the fallback *)

Lemma claimed_expanded_types_superset (io : set_iteration) (self : DialPathRanker)
    (entity_types : gset string) :
  entity_types ⊆ claimed_expanded_types io self entity_types.
Proof.
  unfold claimed_expanded_types.
  generalize (find_subclasses io self entity_types). intros subclasses.
  assert (Hacc : ∀ acc : gset string, entity_types ⊆ acc →
            entity_types ⊆
            foldl (λ types subcls,
                     if bool_decide (entity_types ∩ subclass_group self subcls ≠ ∅)
                     then types ∪ subclass_group self subcls else types)
                  acc subclasses).
  { induction subclasses as [|subcls rest IH]; intros acc Hsub; [done |].
    simpl. apply IH. case_bool_decide; [|done].
    by apply union_subseteq_l'. }
  by apply Hacc.
Qed.

(** The candidates collected from a type set are non-empty exactly when
    one of its types has a path in the table. *)
Lemma collected_nonempty_iff (io : set_iteration) (self : DialPathRanker)
    (entity_types : gset string) :
  as_list io (collect_candidates io self entity_types) ≠ []
  ↔ ∃ t p s, t ∈ entity_types ∧ (p, s) ∈ paths_of_type self t.
Proof.
  unfold collect_candidates. destruct (use_path_stat self); simpl; split.
  - intros Hne.
    destruct (ranked_by_stat io self entity_types) as [|[p s] scored] eqn:Hr; [done |].
    assert (Hp : (p, s) ∈ ranked_by_stat io self entity_types) by (rewrite Hr; left).
    rewrite ranked_by_stat_perm, elem_of_elements, elem_of_scored_candidates in Hp.
    destruct Hp as (t & Ht & Hin). eauto.
  - intros (t & p & s & Ht & Hin) Hnil.
    assert (Hp : (p, s) ∈ ranked_by_stat io self entity_types).
    { rewrite ranked_by_stat_perm, elem_of_elements, elem_of_scored_candidates. eauto. }
    apply (list_elem_of_fmap_2 fst) in Hp. rewrite Hnil in Hp.
    by apply elem_of_nil in Hp.
  - intros Hne.
    destruct (set_to_list io (plain_candidates io self entity_types))
      as [|p found] eqn:Hl; [done |].
    assert (Hp : p ∈ set_to_list io (plain_candidates io self entity_types))
      by (rewrite Hl; left).
    rewrite elem_of_set_to_list, elem_of_plain_candidates in Hp.
    destruct Hp as (t & s & Ht & Hin). eauto.
  - intros (t & p & s & Ht & Hin) Hnil.
    assert (Hp : p ∈ set_to_list io (plain_candidates io self entity_types)).
    { rewrite elem_of_set_to_list, elem_of_plain_candidates. eauto. }
    rewrite Hnil in Hp. by apply elem_of_nil in Hp.
Qed.

(** When the fallback of the specification leaves no candidate, the direct
    candidates are empty as well. *)
Lemma claimed_empty_direct_empty (io : set_iteration) (self : DialPathRanker)
    (entity_types : gset string) :
  claimed_fallback_candidates io self entity_types = [] →
  is_empty (collect_candidates io self entity_types) = true.
Proof.
  unfold claimed_fallback_candidates. intros Hnil.
  apply (is_empty_as_list io).
  destruct (as_list io (collect_candidates io self entity_types)) as [|p found] eqn:Hl;
    [done |].
  assert (Hne : as_list io (collect_candidates io self entity_types) ≠ [])
    by by rewrite Hl.
  apply collected_nonempty_iff in Hne as (t & q & s & Ht & Hin).
  assert (Hex : as_list io (collect_candidates io self
                  (claimed_expanded_types io self entity_types)) ≠ []).
  { apply collected_nonempty_iff. exists t, q, s. split; [|done].
    by apply (claimed_expanded_types_superset io self entity_types). }
  by rewrite Hnil in Hex.
Qed.

(** C6, on the code.  For an item with a seed entity whose candidate set
    after the fallback, as the specification words the fallback, is empty:
    the loop body yields the empty path and the confidence 0.0 only when
    no subclass group meets the entity types; when some group does, the
    item stops with [NameError] on the unbound name of line 137 and
    nothing is output. *)
Theorem empty_fallback_zero_or_name_error (io : set_iteration) (self : DialPathRanker)
    (utterance : string) (first : entity_item) (rest : list entity_item)
    (entity : string) (entity_types : gset string) :
  seed_entity first = Ok entity →
  seed_types self entity = Ok entity_types →
  claimed_fallback_candidates io self entity_types = [] →
  (Exists (λ subcls, entity_types ∩ subclass_group self subcls ≠ ∅)
     (find_subclasses io self entity_types) →
   rank_item io self utterance (first :: rest) = Raise NameError)
  ∧ (Forall (λ subcls, entity_types ∩ subclass_group self subcls = ∅)
       (find_subclasses io self entity_types) →
     rank_item io self utterance (first :: rest) = Ok ([], 0%R)).
Proof.
  intros He Ht Hnil.
  pose proof (claimed_empty_direct_empty io self entity_types Hnil) as Hempty.
  destruct (fallback_never_expands io self entity_types Hempty) as [Hraise Hidle].
  split; intros Hsub.
  - unfold rank_item. rewrite He. simpl. rewrite Ht. simpl.
    by rewrite (Hraise Hsub).
  - by rewrite (rank_item_seeded io self _ _ _ _ _ _ He Ht (Hidle Hsub)).
Qed.

Lemma empty_fallback_zero_or_name_error_witness :
  claimed_fallback_candidates canonical_iteration (empty_fallback_ranker true) {[ "T" ]}
  = []
  ∧ rank_item canonical_iteration (empty_fallback_ranker true) "hi" [Entity "Q1"]
    = Raise NameError
  ∧ claimed_fallback_candidates canonical_iteration (empty_fallback_ranker false) {[ "T" ]}
    = []
  ∧ rank_item canonical_iteration (empty_fallback_ranker false) "hi" [Entity "Q1"]
    = Raise NameError
  ∧ rank_item canonical_iteration unknown_type_ranker "hi" [Entity "Q1"]
    = Ok ([], 0%R).
Proof.
  split; [vm_compute; reflexivity |]. split.
  { refine (proj1 (empty_fallback_zero_or_name_error canonical_iteration
                     (empty_fallback_ranker true) "hi" (Entity "Q1") [] "Q1" {[ "T" ]}
                     _ _ _) _).
    - reflexivity.
    - vm_compute. reflexivity.
    - vm_compute. reflexivity.
    - apply Exists_cons_hd. vm_compute. discriminate. }
  split; [vm_compute; reflexivity |]. split.
  { refine (proj1 (empty_fallback_zero_or_name_error canonical_iteration
                     (empty_fallback_ranker false) "hi" (Entity "Q1") [] "Q1" {[ "T" ]}
                     _ _ _) _).
    - reflexivity.
    - vm_compute. reflexivity.
    - vm_compute. reflexivity.
    - apply Exists_cons_hd. vm_compute. discriminate. }
  refine (proj2 (empty_fallback_zero_or_name_error canonical_iteration
                   unknown_type_ranker "hi" (Entity "Q1") [] "Q1" {[ "TypeZ" ]}
                   _ _ _) _).
  - reflexivity.
  - vm_compute. reflexivity.
  - vm_compute. reflexivity.
  - assert (Hsubs : find_subclasses canonical_iteration unknown_type_ranker {[ "TypeZ" ]}
                    = ["S"]) by (vm_compute; reflexivity).
    rewrite Hsubs. constructor; [vm_compute; reflexivity | constructor].
Defined.

(** ** The frequency average *)

Section Frequency.
Variable self : DialPathRanker.

Lemma py_sum_foldr (l : list Qc) (acc : Qc) :
  foldl Qcplus acc l = (acc + foldr Qcplus 0 l)%Qc.
Proof.
  revert acc. induction l as [|x l IH]; intros acc; simpl.
  - by rewrite Qcplus_0_r.
  - by rewrite IH, Qcplus_assoc.
Qed.

Lemma length_as_number_nonzero (A : Type) (l : list A) :
  l ≠ [] → Qc_of_Z (Z.of_nat (length l)) ≠ 0%Qc.
Proof.
  intros Hne Hz. rewrite <- Z2Qc_inj_0 in Hz. apply Z2Qc_inj in Hz.
  destruct l; [done | simpl in Hz; lia].
Qed.

(** On a non-empty relation list whose table entries are non-empty, the
    code's average is the one the specification words. *)
Lemma average_frequency_claimed (chosen_rels : list string) :
  chosen_rels ≠ [] →
  Forall (λ rel, rel_freq self !! rel ≠ Some []) chosen_rels →
  average_frequency self chosen_rels = Ok (claimed_raw self chosen_rels).
Proof.
  intros Hne Hall. unfold average_frequency.
  assert (Hc : comprehension (frequency self) chosen_rels
               = Ok (first_frequency self <$> chosen_rels)).
  { clear Hne. induction Hall as [|rel rels Hrel _ IH]; simpl; [done |].
    rewrite IH. unfold frequency, first_frequency.
    by destruct (rel_freq self !! rel) as [[|f fs]|]. }
  rewrite Hc. simpl. unfold py_div.
  rewrite bool_decide_eq_false_2 by by apply length_as_number_nonzero.
  unfold claimed_raw, py_sum. by rewrite py_sum_foldr, Qcplus_0_l.
Qed.

Lemma first_frequency_zero rel :
  zero_or_missing self rel →
  rel_freq self !! rel ≠ Some [] ∧ first_frequency self rel = 0%Qc.
Proof.
  unfold first_frequency. by intros [-> | [others ->]].
Qed.

(** Without frequency data the average is 0. *)
Lemma average_frequency_zero (chosen_rels : list string) :
  chosen_rels ≠ [] →
  Forall (zero_or_missing self) chosen_rels →
  average_frequency self chosen_rels = Ok 0%Qc.
Proof.
  intros Hne Hall. rewrite average_frequency_claimed; [|done |].
  - f_equal. unfold claimed_raw.
    assert (Hsum : foldr Qcplus 0%Qc (first_frequency self <$> chosen_rels) = 0%Qc).
    { clear Hne. induction Hall as [|rel rels Hrel _ IH]; [done |].
      rewrite fmap_cons. cbn [foldr]. rewrite IH.
      apply first_frequency_zero in Hrel as [_ ->]. apply Qcplus_0_l. }
    rewrite Hsum. apply Qcmult_0_l.
  - eapply Forall_impl; [exact Hall |]. intros rel Hrel.
    by apply first_frequency_zero in Hrel as [? _].
Qed.

(** The average is computed only for a non-empty relation list whose
    table entries are non-empty. *)
Lemma average_frequency_Ok_inv (chosen_rels : list string) (raw : Qc) :
  average_frequency self chosen_rels = Ok raw →
  chosen_rels ≠ []
  ∧ Forall (λ rel, rel_freq self !! rel ≠ Some []) chosen_rels.
Proof.
  unfold average_frequency. intros H.
  apply bind_Ok_inv in H as (freqs & Hc & H). split.
  - intros ->. unfold py_div in H. by rewrite bool_decide_eq_true_2 in H.
  - clear H. revert freqs Hc.
    induction chosen_rels as [|rel rels IH]; intros freqs Hc; [constructor |].
    simpl in Hc. apply bind_Ok_inv in Hc as (f & Hf & Hc).
    apply bind_Ok_inv in Hc as (fs & Hfs & _).
    constructor; [|by eapply IH].
    intros Hempty. unfold frequency in Hf. by rewrite Hempty in Hf.
Qed.

Lemma confidence_defined (chosen_rels : list string) (raw : Qc) :
  average_frequency self chosen_rels = Ok raw →
  (0 < raw)%Qc →
  max_log_freq self ≠ 0%Qc →
  confidence self chosen_rels
  = Ok (Rmin (ln (Q2R raw) / Q2R (max_log_freq self)) 1 * 0.9)%R.
Proof.
  intros Havg Hpos Hmax. unfold confidence. rewrite Havg. simpl.
  unfold math_log. destruct (Qclt_le_dec 0 raw) as [_ | Hle].
  - simpl. unfold div_max_log_freq. by rewrite bool_decide_eq_false_2.
  - by apply Qclt_not_le in Hpos.
Qed.

Lemma confidence_domain_error (chosen_rels : list string) (raw : Qc) :
  average_frequency self chosen_rels = Ok raw →
  (raw ≤ 0)%Qc →
  confidence self chosen_rels = Raise ValueError.
Proof.
  intros Havg Hle. unfold confidence. rewrite Havg. simpl.
  unfold math_log. destruct (Qclt_le_dec 0 raw) as [Hpos | _]; [|done].
  by apply Qclt_not_le in Hpos.
Qed.

Lemma confidence_Ok_inv (chosen_rels : list string) (c : R) :
  confidence self chosen_rels = Ok c →
  ∃ raw, average_frequency self chosen_rels = Ok raw
         ∧ (0 < raw)%Qc
         ∧ max_log_freq self ≠ 0%Qc
         ∧ c = (Rmin (ln (Q2R raw) / Q2R (max_log_freq self)) 1 * 0.9)%R.
Proof.
  unfold confidence. intros H.
  apply bind_Ok_inv in H as (raw & Havg & H).
  apply bind_Ok_inv in H as (logarithm & Hlog & H).
  apply bind_Ok_inv in H as (ratio & Hratio & H). injection H as <-.
  unfold math_log in Hlog. destruct (Qclt_le_dec 0 raw) as [Hpos | _]; [|done].
  injection Hlog as <-.
  unfold div_max_log_freq in Hratio. case_bool_decide as Hmax; [done |].
  injection Hratio as <-. by exists raw.
Qed.

End Frequency.

(** ** Real-number facts *)

Section Reals.
Local Open Scope R_scope.

Lemma clamp_scaled_le (r : R) : Rmin r 1 * 0.9 <= 0.9.
Proof. pose proof (Rmin_r r 1). lra. Qed.

Lemma clamp_scaled_sign (r : R) :
  (0 <= r → 0 <= Rmin r 1 * 0.9) ∧ (r < 0 → Rmin r 1 * 0.9 < 0).
Proof.
  split; intros Hr.
  - assert (0 <= Rmin r 1) by (apply Rmin_glb; lra). lra.
  - pose proof (Rmin_l r 1). lra.
Qed.

Lemma ln_sign (x : R) :
  0 < x → (1 <= x → 0 <= ln x) ∧ (x < 1 → ln x < 0).
Proof.
  intros Hx. rewrite <- ln_1. split.
  - intros [Hlt | <-]; [|lra]. by apply Rlt_le, ln_increasing; [lra |].
  - intros Hlt. by apply ln_increasing.
Qed.

Lemma ln_le_pred (x : R) : 0 < x → ln x <= x - 1.
Proof.
  intros Hx. pose proof (exp_ineq1_le (x - 1)) as H.
  replace (1 + (x - 1)) with x in H by lra.
  destruct H as [H | H].
  - apply Rlt_le. rewrite <- (ln_exp (x - 1)). by apply ln_increasing.
  - rewrite H at 1. rewrite ln_exp. lra.
Qed.

(** A logarithm is bounded through any power. *)
Lemma ln_lt_of_pow (c x : R) (n : nat) :
  0 < c → 0 < x → c < x ^ n → ln c < INR n * (x - 1).
Proof.
  intros Hc Hx Hlt.
  apply Rlt_le_trans with (ln (x ^ n)); [by apply ln_increasing |].
  rewrite ln_pow by done.
  apply Rmult_le_compat_l; [apply pos_INR | by apply ln_le_pred].
Qed.

Lemma square_down_sound (scale : Z) (k : nat) (q : Z) (x : R) :
  (0 < scale)%Z → (0 ≤ q)%Z → IZR q / IZR scale <= x →
  IZR (square_down scale k q) / IZR scale <= x ^ (2 ^ k).
Proof.
  intros Hs. revert q x. induction k as [|k IH]; intros q x Hq Hx; simpl.
  - lra.
  - assert (HS : 0 < IZR scale) by by apply IZR_lt.
    assert (Hq' : 0 <= IZR q) by by apply IZR_le.
    assert (H0 : 0 <= IZR q / IZR scale).
    { apply Rmult_le_pos; [done |]. by apply Rlt_le, Rinv_0_lt_compat. }
    replace (2 ^ k + (2 ^ k + 0))%nat with (2 * 2 ^ k)%nat by lia.
    rewrite pow_mult. apply IH.
    + apply Z.div_pos; [|done]. by apply Z.mul_nonneg_nonneg.
    + apply Rle_trans with ((IZR q / IZR scale) ^ 2); [|by apply pow_incr].
      assert (Hdiv : (q * q / scale * scale ≤ q * q)%Z).
      { rewrite Z.mul_comm. by apply Z.mul_div_le. }
      apply IZR_le in Hdiv. rewrite !mult_IZR in Hdiv.
      apply (Rmult_le_reg_r (IZR scale * IZR scale));
        [by apply Rmult_lt_0_compat |].
      replace (IZR (q * q / scale) / IZR scale * (IZR scale * IZR scale))
        with (IZR (q * q / scale) * IZR scale) by (field; lra).
      replace ((IZR q / IZR scale) ^ 2 * (IZR scale * IZR scale))
        with (IZR q * IZR q) by (field; lra).
      exact Hdiv.
Qed.

(** [c < x ^ (2 ^ k)], checked by squaring a lower bound [q / 2^60] of
    [x] [k] times. *)
Lemma pow_above (c : Z) (d : Z) (x : R) (k : nat) (q : Z) :
  (0 < d)%Z → (0 ≤ q)%Z → IZR q / IZR scale60 <= x →
  (c * scale60 < d * square_down scale60 k q)%Z →
  IZR c / IZR d < x ^ (2 ^ k).
Proof.
  intros Hd Hq Hx Hlt.
  assert (HS : 0 < IZR scale60) by by apply IZR_lt.
  assert (HD : 0 < IZR d) by by apply IZR_lt.
  apply Rlt_le_trans with (IZR (square_down scale60 k q) / IZR scale60);
    [|by apply square_down_sound].
  apply IZR_lt in Hlt. rewrite !mult_IZR in Hlt.
  apply (Rmult_lt_reg_r (IZR scale60)); [done |].
  apply (Rmult_lt_reg_l (IZR d)); [done |].
  replace (IZR d * (IZR c / IZR d * IZR scale60)) with (IZR c * IZR scale60)
    by (field; lra).
  replace (IZR d * (IZR (square_down scale60 k q) / IZR scale60 * IZR scale60))
    with (IZR d * IZR (square_down scale60 k q)) by (field; lra).
  done.
Qed.

Lemma ln_100_upper : ln 100 < 4.6065.
Proof.
  set (x := 1 + 46065 / 163840000).
  replace 4.6065 with (INR (2 ^ 14) * (x - 1)).
  2:{ rewrite INR_IZR_INZ. change (Z.of_nat (2 ^ 14)) with 16384%Z. unfold x. lra. }
  apply ln_lt_of_pow; [lra | unfold x; lra |].
  set (q := (163886065 * scale60 / 163840000)%Z).
  replace 100 with (IZR 100 / IZR 1) by lra.
  apply (pow_above 100 1 x 14 q); [done | by vm_compute | | by vm_compute].
  assert (Hq : (q * 163840000 ≤ 163886065 * scale60)%Z) by by vm_compute.
  apply IZR_le in Hq. rewrite !mult_IZR in Hq.
  assert (HS : 0 < IZR scale60) by by apply IZR_lt.
  apply (Rmult_le_reg_r (IZR scale60)); [done |].
  unfold Rdiv at 1. rewrite Rmult_assoc, Rinv_l, Rmult_1_r by lra.
  unfold x. generalize dependent (IZR scale60). generalize (IZR q). intros. lra.
Qed.

Lemma ln_100_lower : 4.604 < ln 100.
Proof.
  set (x := 1 - 4604 / 16384000).
  assert (Hinv : ln (/ 100) < - 4.604).
  { replace (- 4.604) with (INR (2 ^ 14) * (x - 1)).
    2:{ rewrite INR_IZR_INZ. change (Z.of_nat (2 ^ 14)) with 16384%Z. unfold x. lra. }
    apply ln_lt_of_pow; [lra | unfold x; lra |].
    set (q := (16379396 * scale60 / 16384000)%Z).
    replace (/ 100) with (IZR 1 / IZR 100) by lra.
    apply (pow_above 1 100 x 14 q); [done | by vm_compute | | by vm_compute].
    assert (Hq : (q * 16384000 ≤ 16379396 * scale60)%Z) by by vm_compute.
    apply IZR_le in Hq. rewrite !mult_IZR in Hq.
    assert (HS : 0 < IZR scale60) by by apply IZR_lt.
    apply (Rmult_le_reg_r (IZR scale60)); [done |].
    unfold Rdiv at 1. rewrite Rmult_assoc, Rinv_l, Rmult_1_r by lra.
    unfold x. generalize dependent (IZR scale60). generalize (IZR q). intros. lra. }
  rewrite ln_Rinv in Hinv by lra. lra.
Qed.

End Reals.

(** ** The confidence *)

Lemma Q2R_Qc_0 : Q2R 0%Qc = 0%R.
Proof. unfold Q2R. simpl. lra. Qed.

Lemma Q2R_Qc_1 : Q2R 1%Qc = 1%R.
Proof. unfold Q2R. simpl. lra. Qed.

Lemma Qclt_Rlt (x y : Qc) : (x < y)%Qc → (Q2R x < Q2R y)%R.
Proof. apply Qlt_Rlt. Qed.

Lemma Qcle_Rle (x y : Qc) : (x ≤ y)%Qc → (Q2R x <= Q2R y)%R.
Proof. apply Qle_Rle. Qed.

(** The sign of the confidence follows the side of 1 on which the average
    frequency lies. *)
Lemma confidence_sign (raw max : Qc) :
  (0 < raw)%Qc → (0 < max)%Qc →
  ((1 ≤ raw)%Qc → (0 <= Rmin (ln (Q2R raw) / Q2R max) 1 * 0.9)%R)
  ∧ ((raw < 1)%Qc → (Rmin (ln (Q2R raw) / Q2R max) 1 * 0.9 < 0)%R).
Proof.
  intros Hraw Hmax.
  apply Qclt_Rlt in Hraw, Hmax. rewrite Q2R_Qc_0 in Hraw, Hmax.
  destruct (ln_sign (Q2R raw) Hraw) as [Hge Hlt].
  assert (Hinv : (0 < / Q2R max)%R) by by apply Rinv_0_lt_compat.
  split; intros H.
  - apply clamp_scaled_sign. apply Qcle_Rle in H. rewrite Q2R_Qc_1 in H.
    apply Rmult_le_pos; [by apply Hge | by apply Rlt_le].
  - apply clamp_scaled_sign. apply Qclt_Rlt in H. rewrite Q2R_Qc_1 in H.
    specialize (Hlt H). unfold Rdiv.
    rewrite <- (Rmult_0_l (/ Q2R max)). by apply Rmult_lt_compat_r.
Qed.

(** Closes a goal [retrieves io self u es rps rrs] on concrete data, given
    the existential witnesses. *)
Ltac concrete_retrieves first entity types found :=
  exists first, [], entity, types, found;
  split; [reflexivity |]; split; [reflexivity |];
  split; [vm_compute; reflexivity |]; split; [vm_compute; reflexivity |];
  split; [discriminate | vm_compute; reflexivity].

Lemma example_retrieves :
  retrieves canonical_iteration example_ranker "hi" [Entity "Q1"]
    [["P31"]; ["P21"]] [["P31"]; ["P21"]].
Proof. concrete_retrieves (Entity "Q1") "Q1" ({[ "TypeA" ]} : gset string) [["P31"]; ["P21"]]. Defined.

Lemma example_item :
  rank_item canonical_iteration example_ranker "hi" [Entity "Q1"]
  = Ok (["P31"], example_confidence).
Proof. vm_compute. reflexivity. Defined.

(** ** C1: the range of the confidence *)

(** C1, as the code has it.  When a path is retrieved and the loop body
    returns, the confidence is at most 0.9 (the clamp [min(..., 1.0)]
    scaled by 0.9); the average frequency is then positive, and with a
    positive [max_log_freq] the confidence is non-negative when the
    average frequency is at least 1 and negative when it is below 1. *)
Theorem confidence_range (io : set_iteration) (self : DialPathRanker)
    (utterance : string) (entities_list : list entity_item)
    (chosen : path) (rps : list path) (rrs : list (list string))
    (p : path) (c : R) :
  retrieves io self utterance entities_list (chosen :: rps) rrs →
  rank_item io self utterance entities_list = Ok (p, c) →
  ∃ chosen_rels raw,
    rrs !! 0 = Some chosen_rels
    ∧ average_frequency self chosen_rels = Ok raw
    ∧ (0 < raw)%Qc
    ∧ p = chosen
    ∧ (c <= 0.9)%R
    ∧ ((0 < max_log_freq self)%Qc →
       ((1 ≤ raw)%Qc → (0 <= c)%R) ∧ ((raw < 1)%Qc → (c < 0)%R)).
Proof.
  intros Hret Hitem. rewrite (rank_item_retrieves io self _ _ _ _ Hret) in Hitem.
  apply bind_Ok_inv in Hitem as (rels & Hrels & Hitem).
  apply bind_Ok_inv in Hitem as (conf & Hconf & Hitem). injection Hitem as <- <-.
  destruct rrs as [|rels' rrs]; [discriminate |]. injection Hrels as ->.
  apply confidence_Ok_inv in Hconf as (raw & Havg & Hraw & Hmax & ->).
  exists rels, raw. repeat (split; [done |]).
  split; [apply clamp_scaled_le |].
  intros Hpos. by apply confidence_sign.
Qed.

Lemma confidence_range_witness : (example_confidence <= 0.9)%R.
Proof.
  destruct (confidence_range canonical_iteration example_ranker "hi" [Entity "Q1"]
              ["P31"] [["P21"]] [["P31"]; ["P21"]] ["P31"] example_confidence
              example_retrieves example_item)
    as (rels & raw & _ & _ & _ & _ & Hle & _).
  exact Hle.
Defined.

(** C1, as stated, fails: a two-hop path whose relations were counted once
    and never has the average frequency 1/2, and the logarithm of 1/2 makes
    the confidence negative. *)
Lemma confidence_can_be_negative :
  retrieves canonical_iteration half_frequency_ranker "hi" [Entity "Q1"]
    [["P1"; "P2"]] [["P1"; "P2"]]
  ∧ rank_item canonical_iteration half_frequency_ranker "hi" [Entity "Q1"]
    = Ok (["P1"; "P2"], half_frequency_confidence)
  ∧ ¬ (0 <= half_frequency_confidence <= 1)%R.
Proof.
  split; [|split].
  - concrete_retrieves (Entity "Q1") "Q1" ({[ "TypeA" ]} : gset string) [["P1"; "P2"]].
  - vm_compute. reflexivity.
  - intros [Hge _]. revert Hge. apply Rlt_not_le.
    by apply (confidence_sign (Q2Qc (1 # 2)) (Q2Qc 8)).
Qed.

(** ** C3: no frequency data *)

(** C3, on the code.  When a path is retrieved and every chosen relation
    has a zero or missing frequency, the average is 0 and [math.log]
    raises: the loop body stops with [ValueError] instead of yielding the
    confidence 0.0. *)
Theorem zero_frequency_raises (io : set_iteration) (self : DialPathRanker)
    (utterance : string) (entities_list : list entity_item)
    (chosen : path) (rps : list path)
    (chosen_rels : list string) (rrs : list (list string)) :
  retrieves io self utterance entities_list (chosen :: rps) (chosen_rels :: rrs) →
  chosen_rels ≠ [] →
  Forall (zero_or_missing self) chosen_rels →
  average_frequency self chosen_rels = Ok 0%Qc
  ∧ rank_item io self utterance entities_list = Raise ValueError.
Proof.
  intros Hret Hne Hall.
  pose proof (average_frequency_zero self chosen_rels Hne Hall) as Havg.
  split; [done |].
  rewrite (rank_item_retrieves io self _ _ _ _ Hret). simpl.
  by rewrite (confidence_domain_error self chosen_rels 0%Qc Havg).
Qed.

Lemma zero_frequency_raises_witness :
  rank_item canonical_iteration missing_frequency_ranker "hi" [Entity "Q1"]
  = Raise ValueError
  ∧ DialPathRanker_call canonical_iteration missing_frequency_ranker
      ["hi"] [[Entity "Q1"]]
    = Raise ValueError.
Proof.
  split; [|vm_compute; reflexivity].
  refine (proj2 (zero_frequency_raises canonical_iteration missing_frequency_ranker
                   "hi" [Entity "Q1"] ["P999"] [] ["P999"] [] _ _ _)).
  - concrete_retrieves (Entity "Q1") "Q1" ({[ "TypeA" ]} : gset string) [["P999"]].
  - discriminate.
  - constructor; [|constructor]. left. vm_compute. reflexivity.
Defined.

(** ** C4: the confidence formula *)

(** C4.  When a path is retrieved, and the formula is defined (the chosen
    relations are not empty, their table entries are not empty, their
    average frequency is positive and [max_log_freq] is not 0), the
    confidence is [min(log(raw) / max_log_freq, 1.0) * 0.9] for the average
    [raw] of the first elements of the relations' frequency entries,
    relations without entry counting 0.  In the example of the
    specification ([P31] with entry [100] and the default
    [max_log_freq = 8.0]) the ratio rounds to 0.576 and the confidence to
    0.518. *)
Theorem confidence_formula :
  (∀ (io : set_iteration) (self : DialPathRanker) (utterance : string)
     (entities_list : list entity_item) (chosen : path) (rps : list path)
     (chosen_rels : list string) (rrs : list (list string)),
     retrieves io self utterance entities_list (chosen :: rps) (chosen_rels :: rrs) →
     chosen_rels ≠ [] →
     Forall (λ rel, rel_freq self !! rel ≠ Some []) chosen_rels →
     (0 < claimed_raw self chosen_rels)%Qc →
     max_log_freq self ≠ 0%Qc →
     rank_item io self utterance entities_list
     = Ok (chosen, claimed_confidence self chosen_rels))
  ∧ (∀ (io : set_iteration) (self : DialPathRanker) (utterance : string)
       (entities_list : list entity_item) (chosen : path) (rps : list path)
       (chosen_rels : list string) (rrs : list (list string)) (p : path) (c : R),
       retrieves io self utterance entities_list (chosen :: rps) (chosen_rels :: rrs) →
       rank_item io self utterance entities_list = Ok (p, c) →
       p = chosen ∧ c = claimed_confidence self chosen_rels)
  ∧ (rank_item canonical_iteration example_ranker "hi" [Entity "Q1"]
     = Ok (["P31"], example_confidence)
     ∧ max_log_freq example_ranker = default_max_log_freq
     ∧ Q2R default_max_log_freq = 8%R
     ∧ Q2R (claimed_raw example_ranker ["P31"]) = 100%R
     ∧ example_confidence = (Rmin (ln 100 / 8) 1 * 0.9)%R
     ∧ (0.5755 < ln 100 / 8 < 0.5765)%R
     ∧ (0.5175 < example_confidence < 0.5185)%R).
Proof.
  split.
  - intros io self utterance entities_list chosen rps chosen_rels rrs
      Hret Hne Hall Hpos Hmax.
    rewrite (rank_item_retrieves io self _ _ _ _ Hret). simpl.
    by rewrite (confidence_defined self chosen_rels _
                  (average_frequency_claimed self chosen_rels Hne Hall) Hpos Hmax).
  - split.
    { intros io self utterance entities_list chosen rps chosen_rels rrs p c
        Hret Hitem.
      rewrite (rank_item_retrieves io self _ _ _ _ Hret) in Hitem. simpl in Hitem.
      apply bind_Ok_inv in Hitem as (conf & Hconf & Hitem).
      injection Hitem as <- <-. split; [done |].
      apply confidence_Ok_inv in Hconf as (raw & Havg & _ & _ & ->).
      destruct (average_frequency_Ok_inv self _ _ Havg) as [Hne Hall].
      rewrite (average_frequency_claimed self _ Hne Hall) in Havg.
      by injection Havg as <-. }
    assert (Hmax : Q2R default_max_log_freq = 8%R) by (unfold Q2R; simpl; lra).
    assert (Hraw : Q2R (Q2Qc 100) = 100%R) by (unfold Q2R; simpl; lra).
    assert (Hconf : example_confidence = (Rmin (ln 100 / 8) 1 * 0.9)%R).
    { unfold example_confidence. fold default_max_log_freq. by rewrite Hmax, Hraw. }
    pose proof ln_100_lower as Hlo. pose proof ln_100_upper as Hhi.
    split; [exact example_item |]. split; [reflexivity |]. split; [exact Hmax |].
    split; [|split; [exact Hconf |]].
    { replace (claimed_raw example_ranker ["P31"]) with (Q2Qc 100); [exact Hraw |].
      vm_compute. reflexivity. }
    split; [lra |].
    rewrite Hconf, Rmin_left by lra. lra.
Qed.

Lemma confidence_formula_witness :
  rank_item canonical_iteration example_ranker "hi" [Entity "Q1"]
  = Ok (["P31"], claimed_confidence example_ranker ["P31"]).
Proof.
  apply (proj1 confidence_formula canonical_iteration example_ranker "hi"
           [Entity "Q1"] ["P31"] [["P21"]] ["P31"] [["P21"]]).
  - exact example_retrieves.
  - discriminate.
  - constructor; [|constructor]. vm_compute. discriminate.
  - vm_compute. reflexivity.
  - vm_compute. discriminate.
Defined.

(** * Further properties of [DialPathRanker.__call__] *)

(** ** Errors and composition of the batch loop *)

Lemma comprehension_app {A B} (f : A → result B) (l1 l2 : list A) :
  comprehension f (l1 ++ l2) =
  ys1 ← comprehension f l1; ys2 ← comprehension f l2; Ok (ys1 ++ ys2).
Proof.
  induction l1 as [|x l1 IH]; simpl.
  - by destruct (comprehension f l2).
  - destruct (f x) as [y|e]; simpl; [|done]. rewrite IH.
    destruct (comprehension f l1) as [ys1|e]; simpl; [|done].
    by destruct (comprehension f l2).
Qed.

Lemma comprehension_first_error {A B} (f : A → result B) (l : list A)
    (i : nat) (x : A) (e : exn) :
  l !! i = Some x → f x = Raise e →
  (∀ j y, j < i → l !! j = Some y → returns (f y)) →
  comprehension f l = Raise e.
Proof.
  revert i. induction l as [|y l IH]; intros [|i] Hx He Hbefore; try done; simpl in *.
  - injection Hx as ->. by rewrite He.
  - destruct (Hbefore 0 y) as [b ->]; [lia | done |]. simpl.
    rewrite (IH i); [done | done | done |].
    intros j z Hj Hz. apply (Hbefore (S j)); [lia | done].
Qed.

(** X1.  The exception of the first item that raises is the outcome of the
    whole call: the paths and confidences of the items before it are lost. *)
Theorem call_raises_first_error (io : set_iteration) (self : DialPathRanker)
    (us : list string) (ebatch : list (list entity_item))
    (i : nat) (u : string) (es : list entity_item) (e : exn) :
  us !! i = Some u →
  ebatch !! i = Some es →
  rank_item io self u es = Raise e →
  (∀ j u' es', j < i → us !! j = Some u' → ebatch !! j = Some es' →
     returns (rank_item io self u' es')) →
  DialPathRanker_call io self us ebatch = Raise e.
Proof.
  intros Hu Hes He Hbefore. unfold DialPathRanker_call.
  rewrite rank_loop_comprehension.
  rewrite (comprehension_first_error _ _ i (u, es) e); [done | | done |].
  - apply lookup_zip_with_Some. eauto.
  - intros j [u' es'] Hj Hz.
    apply lookup_zip_with_Some in Hz as (u'' & es'' & [= <- <-] & Hu' & Hes').
    by apply (Hbefore j).
Qed.

Lemma call_raises_first_error_witness :
  DialPathRanker_call canonical_iteration example_ranker
    ["a"; "b"; "c"] [[]; [EntityList []]; [Entity "Q1"]]
  = Raise IndexError.
Proof.
  apply (call_raises_first_error canonical_iteration example_ranker
           ["a"; "b"; "c"] [[]; [EntityList []]; [Entity "Q1"]]
           1 "b" [EntityList []] IndexError).
  - reflexivity.
  - reflexivity.
  - reflexivity.
  - intros [|j] u' es' Hj Hu Hes; [|lia].
    injection Hu as <-. injection Hes as <-. by eexists.
Defined.

(** X2.  Batch items do not interact: the call on two batches laid end to
    end is the call on the first followed by the call on the second, and
    fails with the first failure among the two. *)
Theorem call_app (io : set_iteration) (self : DialPathRanker)
    (us1 us2 : list string) (eb1 eb2 : list (list entity_item)) :
  length us1 = length eb1 →
  DialPathRanker_call io self (us1 ++ us2) (eb1 ++ eb2) =
  out1 ← DialPathRanker_call io self us1 eb1;
  out2 ← DialPathRanker_call io self us2 eb2;
  Ok (out1.1 ++ out2.1, out1.2 ++ out2.2).
Proof.
  intros Hlen. unfold DialPathRanker_call.
  rewrite !rank_loop_comprehension.
  rewrite zip_with_app by done.
  rewrite comprehension_app.
  destruct (comprehension _ (zip_with pair us1 eb1)) as [ys1|e]; simpl; [|done].
  destruct (comprehension _ (zip_with pair us2 eb2)) as [ys2|e]; simpl; [|done].
  by rewrite !fmap_app.
Qed.

Lemma call_app_witness :
  DialPathRanker_call canonical_iteration example_ranker
    (["a"] ++ ["b"]) ([[]] ++ [[Entity "Q1"]])
  = Ok ([[]] ++ [["P31"]], [0.4%R] ++ [example_confidence]).
Proof.
  rewrite (call_app canonical_iteration example_ranker ["a"] ["b"] [[]] [[Entity "Q1"]]);
    [|reflexivity].
  vm_compute. reflexivity.
Defined.

(** X3.  Only the first entity of an entity list is looked at, and a
    nested list stands for its first element: two batches whose entity
    lists have the same seed give the same outcome. *)
Theorem call_depends_on_seeds (io : set_iteration) (self : DialPathRanker)
    (us : list string) (eb eb' : list (list entity_item)) :
  seed_of <$> eb = seed_of <$> eb' →
  DialPathRanker_call io self us eb = DialPathRanker_call io self us eb'.
Proof.
  intros Hseeds. unfold DialPathRanker_call. rewrite !rank_loop_comprehension.
  f_equal. revert us eb' Hseeds.
  induction eb as [|es eb IH]; intros us [|es' eb'] Hseeds; try done.
  destruct us as [|u us]; [done |]. simpl.
  injection Hseeds as Hseed Hrest. rewrite (IH us eb' Hrest).
  assert (Hitem : rank_item io self u es = rank_item io self u es').
  { destruct es as [|first rest], es' as [|first' rest']; try done.
    simpl in Hseed. injection Hseed as Hseed. simpl. by rewrite Hseed. }
  by rewrite Hitem.
Qed.

Lemma call_depends_on_seeds_witness :
  DialPathRanker_call canonical_iteration example_ranker ["a"; "b"]
    [[EntityList ["Q1"; "Q7"]; Entity "Q2"]; [EntityList []]]
  = DialPathRanker_call canonical_iteration example_ranker ["a"; "b"]
      [[Entity "Q1"]; [EntityList []; Entity "Q9"]].
Proof.
  apply (call_depends_on_seeds canonical_iteration example_ranker ["a"; "b"]).
  reflexivity.
Defined.

(** X4.  In statistic mode the utterances are never read: batches of as
    many utterances give the same outcome. *)
Theorem stat_mode_ignores_utterances (io : set_iteration) (self : DialPathRanker)
    (us us' : list string) (eb : list (list entity_item)) :
  use_path_stat self = true →
  length us = length us' →
  DialPathRanker_call io self us eb = DialPathRanker_call io self us' eb.
Proof.
  intros Hstat Hlen. unfold DialPathRanker_call. rewrite !rank_loop_comprehension.
  f_equal. revert us' eb Hlen.
  induction us as [|u us IH]; intros [|u' us'] eb Hlen; try done.
  destruct eb as [|es eb]; [done |]. simpl.
  injection Hlen as Hlen. rewrite (IH us' eb Hlen).
  assert (Hitem : rank_item io self u es = rank_item io self u' es).
  { unfold rank_item, retrieve, top_paths. by rewrite Hstat. }
  by rewrite Hitem.
Qed.

Lemma stat_mode_ignores_utterances_witness :
  DialPathRanker_call canonical_iteration example_ranker ["who is she"] [[Entity "Q1"]]
  = DialPathRanker_call canonical_iteration example_ranker ["tell me more"] [[Entity "Q1"]].
Proof.
  apply (stat_mode_ignores_utterances canonical_iteration example_ranker).
  - reflexivity.
  - reflexivity.
Defined.

(** ** The candidates and the iteration order of sets *)

#[local] Instance score_desc_antisym : AntiSymm eq (λ a b : Qc, (b ≤ a)%Qc).
Proof. intros a b Hba Hab. by apply Qcle_antisym. Qed.

(** X5.  The order in which Python enumerates sets does not change which
    candidates are found: the sets of lines 115-126 are the same under any
    two enumerations, the statistic-mode lists carry the same scores in the
    same places, and the candidate lists are rearrangements of each
    other. *)
Theorem candidates_independent_of_iteration (io io' : set_iteration)
    (self : DialPathRanker) (entity_types : gset string) :
  scored_candidates io self entity_types = scored_candidates io' self entity_types
  ∧ plain_candidates io self entity_types = plain_candidates io' self entity_types
  ∧ (ranked_by_stat io self entity_types).*2 = (ranked_by_stat io' self entity_types).*2
  ∧ (∀ found found',
       candidate_paths io self entity_types = Ok found →
       candidate_paths io' self entity_types = Ok found' →
       found ≡ₚ found').
Proof.
  assert (Hscored : scored_candidates io self entity_types
                    = scored_candidates io' self entity_types).
  { apply set_eq. intros x. by rewrite !elem_of_scored_candidates. }
  assert (Hplain : plain_candidates io self entity_types
                   = plain_candidates io' self entity_types).
  { apply set_eq. intros p. by rewrite !elem_of_plain_candidates. }
  assert (Hperm : ranked_by_stat io self entity_types
                  ≡ₚ ranked_by_stat io' self entity_types).
  { by rewrite !ranked_by_stat_perm, Hscored. }
  split; [done |]. split; [done |]. split.
  - apply (StronglySorted_unique (λ a b : Qc, (b ≤ a)%Qc)).
    + apply (StronglySorted_fmap snd score_ge); [done | apply sorted_desc_sorted].
    + apply (StronglySorted_fmap snd score_ge); [done | apply sorted_desc_sorted].
    + by apply fmap_Permutation.
  - intros found found' Hc Hc'.
    apply candidate_paths_collect in Hc as ->.
    apply candidate_paths_collect in Hc' as ->.
    unfold collect_candidates. destruct (use_path_stat self); simpl.
    + by apply fmap_Permutation.
    + unfold set_to_list. by rewrite !iter_order_perm, Hplain.
Qed.

Lemma candidates_independent_of_iteration_witness :
  [["P31"]; ["P21"]] ≡ₚ [["P21"]; ["P31"]].
Proof.
  apply (proj2 (proj2 (proj2 (candidates_independent_of_iteration
                                canonical_iteration reversed_iteration
                                unretrievable_ranker {[ "TypeA" ]})))).
  - vm_compute. reflexivity.
  - vm_compute. reflexivity.
Defined.

(** X6.  The candidate list is non-empty exactly when some type of the
    seed entity has a path in the type-path table; lines 115-150 then
    complete without entering the fallback (no subclass query, no
    exception) with the directly collected candidates. *)
Theorem candidates_nonempty_iff_table_entry (io : set_iteration)
    (self : DialPathRanker) (entity_types : gset string) :
  ((∃ t p s, t ∈ entity_types ∧ (p, s) ∈ paths_of_type self t)
   ↔ ∃ found, candidate_paths io self entity_types = Ok found ∧ found ≠ [])
  ∧ ((∃ t p s, t ∈ entity_types ∧ (p, s) ∈ paths_of_type self t) →
     is_empty (collect_candidates io self entity_types) = false
     ∧ candidate_paths io self entity_types
       = Ok (as_list io (collect_candidates io self entity_types))).
Proof.
  assert (Hdirect : (∃ t p s, t ∈ entity_types ∧ (p, s) ∈ paths_of_type self t)
                    ↔ as_list io (collect_candidates io self entity_types) ≠ []).
  { unfold collect_candidates. destruct (use_path_stat self); simpl; split.
    - intros (t & p & s & Ht & Hin) Hnil.
      assert (Hp : (p, s) ∈ ranked_by_stat io self entity_types).
      { rewrite ranked_by_stat_perm, elem_of_elements, elem_of_scored_candidates. eauto. }
      apply (list_elem_of_fmap_2 fst) in Hp. rewrite Hnil in Hp.
      by apply elem_of_nil in Hp.
    - intros Hne.
      destruct (ranked_by_stat io self entity_types) as [|[p s] scored] eqn:Hr; [done |].
      assert (Hp : (p, s) ∈ ranked_by_stat io self entity_types) by (rewrite Hr; left).
      rewrite ranked_by_stat_perm, elem_of_elements, elem_of_scored_candidates in Hp.
      destruct Hp as (t & Ht & Hin). eauto.
    - intros (t & p & s & Ht & Hin) Hnil.
      assert (Hp : p ∈ set_to_list io (plain_candidates io self entity_types)).
      { rewrite elem_of_set_to_list, elem_of_plain_candidates. eauto. }
      rewrite Hnil in Hp. by apply elem_of_nil in Hp.
    - intros Hne.
      destruct (set_to_list io (plain_candidates io self entity_types))
        as [|p found] eqn:Hl; [done |].
      assert (Hp : p ∈ set_to_list io (plain_candidates io self entity_types))
        by (rewrite Hl; left).
      rewrite elem_of_set_to_list, elem_of_plain_candidates in Hp.
      destruct Hp as (t & s & Ht & Hin). eauto. }
  assert (Hrun : as_list io (collect_candidates io self entity_types) ≠ [] →
                 is_empty (collect_candidates io self entity_types) = false
                 ∧ candidate_paths io self entity_types
                   = Ok (as_list io (collect_candidates io self entity_types))).
  { intros Hne. unfold candidate_paths.
    destruct (is_empty _) eqn:Hempty; [|done].
    by apply (is_empty_as_list io) in Hempty. }
  split; [split |].
  - intros Hex. apply Hdirect in Hex as Hne. destruct (Hrun Hne) as [_ Hc]. eauto.
  - intros (found & Hc & Hne). apply Hdirect.
    by apply candidate_paths_collect in Hc as <-.
  - intros Hex. by apply Hrun, Hdirect.
Qed.

Lemma candidates_nonempty_iff_table_entry_witness :
  ∃ found, candidate_paths canonical_iteration example_ranker {[ "TypeA" ]} = Ok found
           ∧ found ≠ [].
Proof.
  apply (proj1 (candidates_nonempty_iff_table_entry canonical_iteration
                  example_ranker {[ "TypeA" ]})).
  exists "TypeA", ["P31"], (Q2Qc (9 # 10)). split.
  - by apply elem_of_singleton.
  - vm_compute. left.
Defined.

(** ** The confidence as a function of the frequencies *)

Lemma ln_monotone (x y : R) : (0 < x)%R → (x <= y)%R → (ln x <= ln y)%R.
Proof.
  intros Hx [Hlt | ->]; [|apply Rle_refl]. by apply Rlt_le, ln_increasing.
Qed.

Lemma clamp_scaled_monotone (r r' : R) :
  (r <= r')%R → (Rmin r 1 * 0.9 <= Rmin r' 1 * 0.9)%R.
Proof.
  intros Hle. apply Rmult_le_compat_r; [lra |].
  apply Rmin_glb; [|apply Rmin_r].
  apply Rle_trans with r; [apply Rmin_l | done].
Qed.

(** X7.  With a positive [max_log_freq] the confidence grows with the
    average frequency: of two relation lists, the one with the larger
    average never gets the smaller confidence. *)
Theorem confidence_monotone (self : DialPathRanker)
    (rels rels' : list string) (raw raw' : Qc) (c c' : R) :
  (0 < max_log_freq self)%Qc →
  average_frequency self rels = Ok raw →
  average_frequency self rels' = Ok raw' →
  (raw ≤ raw')%Qc →
  confidence self rels = Ok c →
  confidence self rels' = Ok c' →
  (c <= c')%R.
Proof.
  intros Hmax Havg Havg' Hle Hc Hc'.
  apply confidence_Ok_inv in Hc as (r & Hr & Hpos & _ & ->).
  apply confidence_Ok_inv in Hc' as (r' & Hr' & _ & _ & ->).
  rewrite Havg in Hr. injection Hr as <-.
  rewrite Havg' in Hr'. injection Hr' as <-.
  apply Qclt_Rlt in Hmax, Hpos. rewrite Q2R_Qc_0 in Hmax, Hpos.
  apply Qcle_Rle in Hle.
  apply clamp_scaled_monotone.
  apply Rmult_le_compat_r; [by apply Rlt_le, Rinv_0_lt_compat |].
  by apply ln_monotone.
Qed.

(** Closes [m = Ok q] for a computed rational [q]. *)
Ltac computed_rational :=
  vm_compute; f_equal; apply Qc_is_canon; reflexivity.

Lemma confidence_monotone_witness :
  (Rmin (ln (Q2R (Q2Qc 50)) / Q2R default_max_log_freq) 1 * 0.9
   <= Rmin (ln (Q2R (Q2Qc 100)) / Q2R default_max_log_freq) 1 * 0.9)%R.
Proof.
  assert (Havg : average_frequency example_ranker ["P31"; "P0"] = Ok (Q2Qc 50))
    by computed_rational.
  assert (Havg' : average_frequency example_ranker ["P31"] = Ok (Q2Qc 100))
    by computed_rational.
  apply (confidence_monotone example_ranker ["P31"; "P0"] ["P31"]
           (Q2Qc 50) (Q2Qc 100)).
  - reflexivity.
  - exact Havg.
  - exact Havg'.
  - vm_compute. discriminate.
  - apply (confidence_defined example_ranker _ _ Havg); [reflexivity | discriminate].
  - apply (confidence_defined example_ranker _ _ Havg'); [reflexivity | discriminate].
Defined.

(** ** Errors of the scoring step *)

Lemma frequency_list_index_error (self : DialPathRanker) (rels : list string) :
  Exists (λ rel, rel_freq self !! rel = Some []) rels →
  comprehension (frequency self) rels = Raise IndexError.
Proof.
  induction 1 as [rel rels Hrel | rel rels _ IH]; simpl.
  - unfold frequency. by rewrite Hrel.
  - destruct (frequency self rel) as [f|e] eqn:Hf; simpl; [by rewrite IH |].
    unfold frequency in Hf.
    destruct (rel_freq self !! rel) as [[|f fs]|]; simpl in Hf; congruence.
Qed.

(** X9.  When the graph service confirms a path, the scoring needs its
    relations: with no relation list the item stops with [IndexError]
    ([retrieved_rels[0]]), and with an empty relation list it stops with
    [ZeroDivisionError] (the average over no relation). *)
Theorem scoring_needs_relations (io : set_iteration) (self : DialPathRanker)
    (utterance : string) (entities_list : list entity_item)
    (chosen : path) (rps : list path) :
  (retrieves io self utterance entities_list (chosen :: rps) [] →
   rank_item io self utterance entities_list = Raise IndexError)
  ∧ (∀ rrs,
       retrieves io self utterance entities_list (chosen :: rps) ([] :: rrs) →
       rank_item io self utterance entities_list = Raise ZeroDivisionError).
Proof.
  split.
  - intros Hret. by rewrite (rank_item_retrieves io self _ _ _ _ Hret).
  - intros rrs Hret. by rewrite (rank_item_retrieves io self _ _ _ _ Hret).
Qed.

Lemma scoring_needs_relations_witness :
  rank_item canonical_iteration (scoring_ranker {[ "P31" := [Q2Qc 100] ]} [])
    "hi" [Entity "Q1"] = Raise IndexError
  ∧ rank_item canonical_iteration (scoring_ranker {[ "P31" := [Q2Qc 100] ]} [[]])
      "hi" [Entity "Q1"] = Raise ZeroDivisionError.
Proof.
  split.
  - apply (proj1 (scoring_needs_relations canonical_iteration _ "hi" [Entity "Q1"]
                    ["P31"] [])).
    concrete_retrieves (Entity "Q1") "Q1" ({[ "TypeA" ]} : gset string) [["P31"]].
  - apply (proj2 (scoring_needs_relations canonical_iteration _ "hi" [Entity "Q1"]
                    ["P31"] []) []).
    concrete_retrieves (Entity "Q1") "Q1" ({[ "TypeA" ]} : gset string) [["P31"]].
Defined.

(** X10.  A chosen relation whose entry in the frequency table is the
    empty list stops the item with [IndexError]: the default [[0]] serves
    only relations without entry. *)
Theorem empty_frequency_entry_raises (io : set_iteration) (self : DialPathRanker)
    (utterance : string) (entities_list : list entity_item)
    (chosen : path) (rps : list path)
    (chosen_rels : list string) (rrs : list (list string)) :
  retrieves io self utterance entities_list (chosen :: rps) (chosen_rels :: rrs) →
  Exists (λ rel, rel_freq self !! rel = Some []) chosen_rels →
  rank_item io self utterance entities_list = Raise IndexError.
Proof.
  intros Hret Hex. rewrite (rank_item_retrieves io self _ _ _ _ Hret). simpl.
  unfold confidence, average_frequency.
  by rewrite (frequency_list_index_error self chosen_rels Hex).
Qed.

Lemma empty_frequency_entry_raises_witness :
  rank_item canonical_iteration
    (scoring_ranker {[ "P31" := [Q2Qc 100]; "P21" := [] ]} [["P31"; "P21"]])
    "hi" [Entity "Q1"]
  = Raise IndexError.
Proof.
  apply (empty_frequency_entry_raises canonical_iteration _ "hi" [Entity "Q1"]
           ["P31"] [] ["P31"; "P21"] []).
  - concrete_retrieves (Entity "Q1") "Q1" ({[ "TypeA" ]} : gset string) [["P31"]].
  - apply Exists_cons_tl, Exists_cons_hd. vm_compute. reflexivity.
Defined.

(** X11.  With [max_log_freq = 0] no retrieved path can be scored: the
    item stops with [ZeroDivisionError] when the average frequency is
    positive, and with the [ValueError] of [math.log], which is evaluated
    first, when it is not. *)
Theorem zero_max_log_freq_raises (io : set_iteration) (self : DialPathRanker)
    (utterance : string) (entities_list : list entity_item)
    (chosen : path) (rps : list path)
    (chosen_rels : list string) (rrs : list (list string)) (raw : Qc) :
  retrieves io self utterance entities_list (chosen :: rps) (chosen_rels :: rrs) →
  max_log_freq self = 0%Qc →
  average_frequency self chosen_rels = Ok raw →
  ((0 < raw)%Qc → rank_item io self utterance entities_list = Raise ZeroDivisionError)
  ∧ ((raw ≤ 0)%Qc → rank_item io self utterance entities_list = Raise ValueError).
Proof.
  intros Hret Hmax Havg. rewrite (rank_item_retrieves io self _ _ _ _ Hret). simpl.
  split; intros Hraw.
  - unfold confidence. rewrite Havg. simpl. unfold math_log.
    destruct (Qclt_le_dec 0 raw) as [_ | Hle]; [|by apply Qclt_not_le in Hraw].
    simpl. unfold div_max_log_freq. by rewrite bool_decide_eq_true_2.
  - by rewrite (confidence_domain_error self _ _ Havg Hraw).
Qed.

Lemma zero_max_log_freq_raises_witness :
  rank_item canonical_iteration
    (with_max_log_freq 0 (scoring_ranker {[ "P31" := [Q2Qc 100] ]} [["P31"]]))
    "hi" [Entity "Q1"]
  = Raise ZeroDivisionError
  ∧ rank_item canonical_iteration
      (with_max_log_freq 0 (scoring_ranker {[ "P31" := [Q2Qc 100] ]} [["P0"]]))
      "hi" [Entity "Q1"]
    = Raise ValueError.
Proof.
  split.
  - refine (proj1 (zero_max_log_freq_raises canonical_iteration _ "hi" [Entity "Q1"]
                     ["P31"] [] ["P31"] [] (Q2Qc 100) _ _ _) _).
    + concrete_retrieves (Entity "Q1") "Q1" ({[ "TypeA" ]} : gset string) [["P31"]].
    + reflexivity.
    + computed_rational.
    + reflexivity.
  - refine (proj2 (zero_max_log_freq_raises canonical_iteration _ "hi" [Entity "Q1"]
                     ["P31"] [] ["P0"] [] (Q2Qc 0) _ _ _) _).
    + concrete_retrieves (Entity "Q1") "Q1" ({[ "TypeA" ]} : gset string) [["P31"]].
    + reflexivity.
    + computed_rational.
    + vm_compute. discriminate.
Defined.

(** ** The returned batch *)

(** X12.  In every returned batch the two lists have the same length and
    no confidence exceeds 0.9. *)
Theorem batch_confidences_bounded (io : set_iteration) (self : DialPathRanker)
    (us : list string) (ebatch : list (list entity_item))
    (ps : list path) (cs : list R) :
  DialPathRanker_call io self us ebatch = Ok (ps, cs) →
  length ps = length cs ∧ Forall (λ c, (c <= 0.9)%R) cs.
Proof.
  intros Hcall. apply call_positional in Hcall as (Hps & Hcs & Hpos).
  split; [lia |]. apply Forall_lookup. intros i c Hc.
  apply lookup_lt_Some in Hc as Hi. rewrite Hcs in Hi.
  destruct (lookup_lt_is_Some_2 us i ltac:(lia)) as [u Hu].
  destruct (lookup_lt_is_Some_2 ebatch i ltac:(lia)) as [es Hes].
  destruct (Hpos i u es Hu Hes) as (p & c' & Hitem & _ & Hc').
  rewrite Hc in Hc'. injection Hc' as <-.
  apply rank_item_inv in Hitem as [(_ & _ & ->) | [(_ & _ & ->) | Hret]]; [lra.. |].
  destruct Hret as (rps & rels & rrs & _ & Hconf).
  apply confidence_Ok_inv in Hconf as (raw & _ & _ & _ & ->).
  apply clamp_scaled_le.
Qed.

Lemma batch_confidences_bounded_witness :
  length [["P31"]; []] = length [example_confidence; 0.4%R]
  ∧ Forall (λ c, (c <= 0.9)%R) [example_confidence; 0.4%R].
Proof.
  apply (batch_confidences_bounded canonical_iteration example_ranker
           ["hi"; "there"] [[Entity "Q1"]; []]).
  vm_compute. reflexivity.
Defined.

(** * Properties of [KGDialGenerator.__call__] *)

Section GeneratorFacts.
Context {sampler : Type}.
Variable self : KGDialGenerator sampler.

Lemma generate_item_silent g prev triplets conf :
  (conf <= conf_thres self)%R → generate_item self g prev triplets conf = ("", g).
Proof.
  intros Hle. unfold generate_item.
  destruct (Rlt_dec (conf_thres self) conf) as [Hlt | _]; [lra | done].
Qed.

Lemma generate_loop_acc items g acc :
  generate_loop self items g acc =
  (acc ++ (generate_loop self items g []).1, (generate_loop self items g []).2).
Proof.
  revert g acc. induction items as [|[[prev triplets] conf] items IH]; intros g acc.
  - simpl. by rewrite app_nil_r.
  - simpl. destruct (generate_item self g prev triplets conf) as [u g'].
    rewrite (IH g' (acc ++ [u])), (IH g' [u]). simpl. by rewrite <- app_assoc.
Qed.

Lemma generate_loop_cons prev triplets conf items g :
  generate_loop self ((prev, triplets, conf) :: items) g [] =
  ((generate_item self g prev triplets conf).1
     :: (generate_loop self items (generate_item self g prev triplets conf).2 []).1,
   (generate_loop self items (generate_item self g prev triplets conf).2 []).2).
Proof.
  simpl. destruct (generate_item self g prev triplets conf) as [u g'].
  by rewrite generate_loop_acc.
Qed.

Lemma generate_loop_length items g :
  length (generate_loop self items g []).1 = length items.
Proof.
  revert g. induction items as [|[[prev triplets] conf] items IH]; intros g; [done |].
  rewrite generate_loop_cons. simpl. by rewrite IH.
Qed.

Lemma generate_loop_app items1 items2 g :
  generate_loop self (items1 ++ items2) g [] =
  ((generate_loop self items1 g []).1
     ++ (generate_loop self items2 (generate_loop self items1 g []).2 []).1,
   (generate_loop self items2 (generate_loop self items1 g []).2 []).2).
Proof.
  revert g. induction items1 as [|[[prev triplets] conf] items1 IH]; intros g.
  - simpl. by destruct (generate_loop self items2 g []).
  - rewrite <- app_comm_cons, !generate_loop_cons, IH. done.
Qed.

Lemma call_as_loop g prevs trips confs :
  KGDialGenerator_call self g prevs trips confs =
  (((generate_loop self (zip (zip prevs trips) confs) g []).1, confs),
   (generate_loop self (zip (zip prevs trips) confs) g []).2).
Proof.
  unfold KGDialGenerator_call. by destruct (generate_loop _ _ _ _).
Qed.

(** X13.  The generated utterances are as many as the shortest of the
    three input batches, while the confidences are handed back as they
    came, not cut to that length. *)
Theorem generator_output_shape g (prevs : list string) (trips : list (list string))
    (confs : list R) :
  length (KGDialGenerator_call self g prevs trips confs).1.1
  = (length prevs `min` length trips) `min` length confs
  ∧ (KGDialGenerator_call self g prevs trips confs).1.2 = confs.
Proof.
  rewrite call_as_loop. simpl. split; [|done].
  by rewrite generate_loop_length, !length_zip.
Qed.

(** X14.  An item whose confidence does not exceed the threshold (the
    comparison is strict) gets the empty utterance, whatever the other
    items are. *)
Theorem low_confidence_gives_empty_utterance g (prevs : list string)
    (trips : list (list string)) (confs : list R)
    (i : nat) (prev : string) (triplets : list string) (conf : R) :
  prevs !! i = Some prev →
  trips !! i = Some triplets →
  confs !! i = Some conf →
  (conf <= conf_thres self)%R →
  (KGDialGenerator_call self g prevs trips confs).1.1 !! i = Some "".
Proof.
  intros Hp Ht Hc Hle. rewrite call_as_loop. simpl.
  assert (Hitem : zip (zip prevs trips) confs !! i = Some (prev, triplets, conf)).
  { apply lookup_zip_with_Some. exists (prev, triplets), conf.
    split; [done |]. split; [|done]. apply lookup_zip_with_Some. eauto. }
  clear Hp Ht Hc. revert g i Hitem.
  induction (zip (zip prevs trips) confs) as [|[[p t] c] items IH];
    intros g [|i] Hitem; try done; rewrite generate_loop_cons; simpl in *.
  - injection Hitem as -> -> ->. by rewrite generate_item_silent.
  - by apply IH.
Qed.

(** X15.  When no processed item exceeds the threshold, every utterance is
    empty and the language model is never sampled: the state of the
    random generator is the one the call started with. *)
Theorem silent_batch_leaves_sampler g (prevs : list string)
    (trips : list (list string)) (confs : list R) :
  let n := (length prevs `min` length trips) `min` length confs in
  Forall (λ conf, (conf <= conf_thres self)%R) (take n confs) →
  KGDialGenerator_call self g prevs trips confs = ((replicate n "", confs), g).
Proof.
  intros n Hall. rewrite call_as_loop.
  assert (Hloop : ∀ items : list (string * list string * R),
            Forall (λ it, (it.2 <= conf_thres self)%R) items →
            generate_loop self items g [] = (replicate (length items) "", g)).
  { induction items as [|[[p t] c] items IH]; intros Hitems; [done |].
    apply Forall_cons in Hitems as [Hc Hitems]. simpl in Hc.
    rewrite generate_loop_cons, generate_item_silent by done. simpl.
    by rewrite IH. }
  rewrite Hloop.
  - simpl. by rewrite !length_zip.
  - apply Forall_lookup. intros i [[p t] c] Hi. simpl.
    apply lookup_zip_with_Some in Hi as (pt & c' & [= <- <-] & Hpt & Hc).
    rewrite Forall_lookup in Hall. apply (Hall i).
    rewrite lookup_take_lt; [done |].
    apply lookup_lt_Some in Hpt, Hc. rewrite length_zip in Hpt. unfold n. lia.
Qed.

(** X16.  Above the threshold the model is sampled once on the encoded
    context, and what is decoded is the part of its output after the
    prompt: when the model returns the prompt followed by a continuation,
    the utterance is the decoded continuation. *)
Theorem generated_utterance_excludes_prompt g g' (prev : string)
    (triplets : list string) (conf : R) (continuation : list nat) :
  (conf_thres self < conf)%R →
  generate self g (encode self (context_plus_gk self prev triplets))
  = (encode self (context_plus_gk self prev triplets) ++ continuation, g') →
  generate_item self g prev triplets conf = (decode self continuation, g').
Proof.
  intros Hlt Hgen. unfold generate_item.
  destruct (Rlt_dec (conf_thres self) conf) as [_ | Hn]; [|done].
  rewrite Hgen. by rewrite drop_app_length.
Qed.

(** X17.  The sampler state is threaded through the items in batch order:
    the call on two batches laid end to end is the call on the first,
    followed by the call on the second from the state the first left. *)
Theorem generator_call_app g (prevs1 prevs2 : list string)
    (trips1 trips2 : list (list string)) (confs1 confs2 : list R) :
  length prevs1 = length trips1 →
  length prevs1 = length confs1 →
  let first := KGDialGenerator_call self g prevs1 trips1 confs1 in
  let second := KGDialGenerator_call self first.2 prevs2 trips2 confs2 in
  KGDialGenerator_call self g (prevs1 ++ prevs2) (trips1 ++ trips2) (confs1 ++ confs2)
  = ((first.1.1 ++ second.1.1, confs1 ++ confs2), second.2).
Proof.
  intros Ht Hc. cbv zeta. rewrite !call_as_loop. simpl.
  rewrite (zip_with_app pair prevs1 prevs2 trips1 trips2 Ht).
  rewrite zip_with_app by (by rewrite length_zip, <- Ht, Nat.min_id).
  by rewrite generate_loop_app.
Qed.

End GeneratorFacts.

Lemma low_confidence_gives_empty_utterance_witness :
  (KGDialGenerator_call (counting_generator 0.3) 0
     ["a"; "b"] [[]; ["P31"]] [0.4%R; 0.3%R]).1.1 !! 1 = Some "".
Proof.
  apply (low_confidence_gives_empty_utterance (counting_generator 0.3) 0
           ["a"; "b"] [[]; ["P31"]] [0.4%R; 0.3%R] 1 "b" ["P31"] 0.3%R).
  - reflexivity.
  - reflexivity.
  - reflexivity.
  - simpl. lra.
Defined.

Lemma silent_batch_leaves_sampler_witness :
  KGDialGenerator_call (counting_generator 0.3) 5
    ["a"; "b"] [[]; ["P31"]] [0%R; 0.3%R; 0.99%R]
  = ((["";""], [0%R; 0.3%R; 0.99%R]), 5).
Proof.
  apply (silent_batch_leaves_sampler (counting_generator 0.3) 5
           ["a"; "b"] [[]; ["P31"]] [0%R; 0.3%R; 0.99%R]).
  simpl. repeat constructor; simpl; lra.
Defined.

Lemma generated_utterance_excludes_prompt_witness :
  generate_item (counting_generator 0.3) 7 "hi" ["P31"] 0.5%R = ("sample", 8).
Proof.
  apply (generated_utterance_excludes_prompt (counting_generator 0.3) 7 8
           "hi" ["P31"] 0.5%R [7]).
  - simpl. lra.
  - reflexivity.
Defined.

Lemma generator_call_app_witness :
  KGDialGenerator_call (counting_generator 0.3) 0
    (["a"] ++ ["b"]) ([[]] ++ [["P31"]]) ([0.4%R] ++ [0.5%R])
  = (((KGDialGenerator_call (counting_generator 0.3) 0 ["a"] [[]] [0.4%R]).1.1
      ++ (KGDialGenerator_call (counting_generator 0.3)
            (KGDialGenerator_call (counting_generator 0.3) 0 ["a"] [[]] [0.4%R]).2
            ["b"] [["P31"]] [0.5%R]).1.1,
      [0.4%R] ++ [0.5%R]),
     (KGDialGenerator_call (counting_generator 0.3)
        (KGDialGenerator_call (counting_generator 0.3) 0 ["a"] [[]] [0.4%R]).2
        ["b"] [["P31"]] [0.5%R]).2).
Proof.
  apply (generator_call_app (counting_generator 0.3) 0
           ["a"] ["b"] [[]] [["P31"]] [0.4%R] [0.5%R]).
  - reflexivity.
  - reflexivity.
Defined.

(** * The generator on the output of the ranker *)

(** X18.  What the generator does with a pair returned by the loop body of
    the ranker.  For an item without entities the prior 0.4 exceeds the
    default threshold 0.3: the model is sampled, on the previous utterance
    alone.  For an item with a seed entity for which no path is retrieved
    the confidence 0.0 exceeds no non-negative threshold: the utterance is
    empty and the model is not sampled. *)
Theorem generator_on_ranker_output {sampler : Type} (gen : KGDialGenerator sampler)
    (io : set_iteration) (ranker : DialPathRanker) (g : sampler)
    (prev utterance : string) (entities_list : list entity_item)
    (p : path) (c : R) :
  rank_item io ranker utterance entities_list = Ok (p, c) →
  (entities_list = [] → conf_thres gen = default_conf_thres →
   generate_item gen g prev p c =
   let input_ids := encode gen (prev ++ eos_token gen)%string in
   (decode gen (drop (length input_ids) (generate gen g input_ids).1),
    (generate gen g input_ids).2))
  ∧ (entities_list ≠ [] →
     (∀ chosen rps rrs,
        ¬ retrieves io ranker utterance entities_list (chosen :: rps) rrs) →
     (0 <= conf_thres gen)%R →
     generate_item gen g prev p c = ("", g)).
Proof.
  intros Hitem. split.
  - intros -> Hthres. simpl in Hitem. injection Hitem as <- <-.
    unfold generate_item. rewrite Hthres. unfold default_conf_thres.
    destruct (Rlt_dec 0.3 0.4) as [_ | Hn]; [|lra]. simpl.
    by destruct (generate gen g _).
  - intros Hne Hnone Hthres.
    apply rank_item_inv in Hitem as [(-> & _) | [(_ & -> & ->) | Hret]]; [done | |].
    + by apply generate_item_silent.
    + destruct Hret as (rps & rels & rrs & Hret & _). by apply Hnone in Hret.
Qed.

Lemma generator_on_ranker_output_witness :
  generate_item (counting_generator default_conf_thres) 3 "hello" [] 0.4%R
  = ("sample", 4)
  ∧ generate_item (counting_generator default_conf_thres) 3 "hello" [] 0%R
    = ("", 3).
Proof.
  split.
  - apply (proj1 (generator_on_ranker_output (counting_generator default_conf_thres)
                    canonical_iteration example_ranker 3 "hello" "hi" [] [] 0.4%R
                    eq_refl)).
    + reflexivity.
    + reflexivity.
  - refine (proj2 (generator_on_ranker_output (counting_generator default_conf_thres)
                    canonical_iteration unknown_type_ranker 3 "hello" "hi"
                    [Entity "Q1"] [] 0%R _) _ _ _).
    + vm_compute. reflexivity.
    + discriminate.
    + intros chosen rps rrs
        (first & rest & entity & tys & found & Hes & He & Ht & Hc & Hne & _).
      injection Hes as <- <-. injection He as <-.
      assert (Htys : seed_types unknown_type_ranker "Q1" = Ok ({[ "TypeZ" ]} : gset string))
        by (vm_compute; reflexivity).
      rewrite Htys in Ht. injection Ht as <-.
      assert (Hnone : candidate_paths canonical_iteration unknown_type_ranker {[ "TypeZ" ]}
                      = Ok []) by (vm_compute; reflexivity).
      rewrite Hnone in Hc. injection Hc as <-. by apply Hne.
    + unfold default_conf_thres. simpl. lra.
Defined.
